(** * Background job engine of the manga tracker: queues, workers,
      scheduler loop and graceful shutdown.

    The development follows the source modules of the engine:
    - [Redis]   : the shared store connection (retry strategy, disconnect);
    - [Queues]  : the two producer-side queue handles and their job options;
    - [Engine]  : the consumer-side contract of a worker (concurrency
                  ceiling, rate limiter, retry protocol);
    - [Workers] : the worker process (two workers, the scheduler loop and
                  the signal-driven shutdown);
    - [Scheduler] : what a trace says about the scheduler loop.

    Around the engine, the request layer that feeds it:
    - [RateLimit]   : the fixed-window request limiter;
    - [Text]        : encoding, escaping and sanitizing of request text;
    - [Pagination]  : paging parameters and the paging part of a response;
    - [SocialUtils] : who may see an activity feed.

    JavaScript numbers that are integers here (attempt counters,
    milliseconds) are [Z]; counters that only count are [nat].  An [async]
    function is written as its synchronous prefix plus one continuation per
    [await], the continuation receiving the outcome of the awaited promise. *)

From Stdlib Require Import String DecimalString Ascii.
From Stdlib Require Import ZArith List Bool Lia Arith PeanoNat.
Import ListNotations.

Local Open Scope string_scope.
Local Open Scope list_scope.
Local Open Scope Z_scope.

(* ------------------------------------------------------------------ *)
(** ** Observable effects shared by all modules *)

(** A thrown value / rejection reason; only its message is ever printed. *)
Definition js_error := string.

(** How an awaited promise settles. *)
Inductive outcome : Type :=
| Fulfilled
| Rejected (err : js_error).

Inductive signal : Type := SIGTERM | SIGINT.

Inductive worker_id : Type := CheckSource | Notification.

(** Calls that leave the module: console output, commands on the redis
    client, timers, worker control and process exit. *)
Inductive action : Type :=
| ConsoleLog (text : string)
| ConsoleError (text : string) (err : option js_error)
| RedisQuit                       (* redis.quit() issued *)
| RedisDisconnect                 (* redis.disconnect() *)
| RunMasterScheduler              (* runMasterScheduler() invoked *)
| SetInterval (ms : Z)
| ClearInterval
| WorkerClose (w : worker_id)     (* worker.close() *)
| HandlerStart (w : worker_id)    (* a processor invocation begins *)
| HandlerEnd (w : worker_id)      (* a processor invocation settles *)
| UnhandledRejection (err : js_error)  (* a rejected promise nobody awaits *)
| ProcessExit (code : Z).

Definition signal_name (sg : signal) : string :=
  match sg with SIGTERM => "SIGTERM" | SIGINT => "SIGINT" end.

Definition worker_id_eqb (a b : worker_id) : bool :=
  match a, b with
  | CheckSource, CheckSource | Notification, Notification => true
  | _, _ => false
  end.

(** Decimal rendering of an integer inside a template literal. *)
Definition show_Z (z : Z) : string := NilZero.string_of_int (Z.to_int z).

(* ------------------------------------------------------------------ *)
(** ** The store connection (lib/redis) *)

Module Redis.

Definition REDIS_KEY_PREFIX : string := "kenmei:".

(** Connection states of the client. *)
Inductive status : Type :=
| Wait | Connecting | Connect | Ready | Reconnecting | Close | End.

Definition is_end (s : status) : bool :=
  match s with End => true | _ => false end.

(** [retryStrategy] of the client options: the delay before reconnection
    attempt number [times], or [None] to stop reconnecting.  The first
    component is what is printed. *)
Definition retryStrategy (times : Z) : list action * option Z :=
  let delay := Z.min (times * 200) 5000 in
  if 20 <? times then
    ([ConsoleError ("[Redis] Failed to connect after " ++ show_Z times
                      ++ " attempts. Giving up.")%string None],
     None)
  else ([], Some delay).

(** The client as far as [disconnectRedis] can see it.  The status is
    kept by the client library: the module reads it and never assigns it. *)
Record client : Type := { state : status }.

(** What became of a call to the async function when control returns to
    the event loop: its promise has resolved, it has rejected, or the
    call is suspended on the promise of [redis.quit()]. *)
Inductive progress : Type :=
| Resolved
| Failed (err : js_error)
| AwaitingQuit.

(** [disconnectRedis], from the call to its first suspension. *)
Definition disconnectRedis (r : client) : client * list action * progress :=
  if is_end (state r) then (r, [], Resolved)
  else (r, [RedisQuit], AwaitingQuit).

(** [disconnectRedis], resumed when [redis.quit()] settles: the rest of
    the [try] block, or the [catch] block.  The client is left as it is:
    when and whether its status becomes ['end'] is the library's doing. *)
Definition disconnectRedis_resume (o : outcome) (r : client)
  : client * list action * progress :=
  match o with
  | Fulfilled => (r, [ConsoleLog "[Redis] Disconnected"], Resolved)
  | Rejected err =>
      (r,
       [ConsoleError "[Redis] Error during disconnect:" (Some err);
        RedisDisconnect],
       Resolved)
  end.

(** A whole call, given how [quit] settles should it be issued. *)
Definition disconnectRedis_run (o : outcome) (r : client)
  : client * list action * progress :=
  match disconnectRedis r with
  | (r1, out1, AwaitingQuit) =>
      match disconnectRedis_resume o r1 with
      | (r2, out2, p) => (r2, out1 ++ out2, p)
      end
  | done => done
  end.

End Redis.

(* ------------------------------------------------------------------ *)
(** ** The queue handles (lib/queues) *)

Module Queues.

Definition CHECK_SOURCE_QUEUE : string := "check-source".
Definition NOTIFICATION_QUEUE : string := "notifications".

Inductive backoff_type : Type := fixed | exponential.

Record backoff_options : Type := { type : backoff_type; delay : Z }.

(** Retention: keep at most [count] jobs, none older than [age] seconds. *)
Record keep_jobs : Type := { count : Z; age : Z }.

Record job_options : Type := {
  attempts : nat;
  backoff : backoff_options;
  removeOnComplete : keep_jobs;
  removeOnFail : keep_jobs
}.

Record queue : Type := { name : string; defaultJobOptions : job_options }.

Definition checkSourceQueue : queue :=
  {| name := CHECK_SOURCE_QUEUE;
     defaultJobOptions :=
       {| attempts := 3;
          backoff := {| type := exponential; delay := 5000 |};
          removeOnComplete := {| count := 100; age := 3600 |};
          removeOnFail := {| count := 500; age := 86400 |} |} |}.

Definition notificationQueue : queue :=
  {| name := NOTIFICATION_QUEUE;
     defaultJobOptions :=
       {| attempts := 5;
          backoff := {| type := exponential; delay := 1000 |};
          removeOnComplete := {| count := 100; age := 3600 |};
          removeOnFail := {| count := 500; age := 86400 |} |} |}.

End Queues.

(* ------------------------------------------------------------------ *)
(** ** The worker engine and the retry protocol

    The workers are instances of the queue library's [Worker]; the library
    is not part of the repository.  The options record is the one the
    source passes to the constructor; the behaviour behind it is taken from
    the design document. *)

Module Engine.

Record rate_limit : Type := { max : nat; duration : Z }.

Record worker_options : Type := {
  concurrency : nat;
  limiter : option rate_limit
}.

(** *** Claiming jobs *)

(** The state of one engine.  Time is in milliseconds; [starts] holds the
    start time of every job started so far, newest first. *)
Record engine : Type := {
  clock : Z;
  waiting : nat;
  running : nat;
  starts : list Z
}.

Inductive input : Type :=
| Enqueue (n : nat)     (* n jobs become available *)
| Elapse (d : Z)        (* d milliseconds pass *)
| Claim                 (* the engine tries to start one job *)
| Settle.               (* one running handler returns or throws *)

(** Job starts strictly later than [t]. *)
Definition started_since (t : Z) (l : list Z) : nat :=
  length (filter (fun s => t <? s) l).

(** Modelled from the spec: the concurrency guard of the [Worker] class
    (missing).  "A semaphore of size C; a new job is claimed from the
    store only when a slot is free." *)
Definition slot_free (o : worker_options) (e : engine) : bool :=
  (running e <? concurrency o)%nat.

(** Modelled from the spec: the rate guard of the [Worker] class
    (missing).  "At most R job starts permitted within a rolling window
    of duration W; when the bucket is empty, claiming pauses until a slot
    refills."  A worker created without a limiter has no such guard. *)
Definition bucket_open (o : worker_options) (e : engine) : bool :=
  match limiter o with
  | None => true
  | Some rl =>
      (started_since (clock e - duration rl) (starts e) <? max rl)%nat
  end.

(** Modelled from the spec: the claim path of the [Worker] class
    (missing).  "Concurrency and rate limiting compose: both must permit
    a start", "two guards evaluated in sequence before a claim proceeds";
    a handler that returns or throws frees its slot. *)
Definition step (o : worker_options) (e : engine) (i : input) : engine :=
  match i with
  | Enqueue n =>
      {| clock := clock e; waiting := waiting e + n;
         running := running e; starts := starts e |}
  | Elapse d =>
      {| clock := clock e + Z.max 0 d; waiting := waiting e;
         running := running e; starts := starts e |}
  | Claim =>
      if slot_free o e then
        if bucket_open o e then
          match waiting e with
          | O => e
          | S w =>
              {| clock := clock e; waiting := w;
                 running := S (running e);
                 starts := clock e :: starts e |}
          end
        else e
      else e
  | Settle =>
      {| clock := clock e; waiting := waiting e;
         running := Nat.pred (running e); starts := starts e |}
  end.

Definition run (o : worker_options) (e : engine) (l : list input) : engine :=
  fold_left (step o) l e.

(** An idle engine with [n] jobs instantly available. *)
Definition fresh (n : nat) : engine :=
  {| clock := 0; waiting := n; running := 0%nat; starts := [] |}.

(** Job starts inside the window [t, t + w). *)
Definition starts_in (t w : Z) (l : list Z) : nat :=
  length (filter (fun s => (t <=? s) && (s <? t + w)) l).

(** Every window of [duration rl] milliseconds holds at most [max rl]
    job starts. *)
Definition within_rate (rl : rate_limit) (e : engine) : Prop :=
  forall t, (starts_in t (duration rl) (starts e) <= max rl)%nat.

(** [k] times: one job enqueued, claimed and finished, no time passing. *)
Definition burst (k : nat) : list input :=
  concat (repeat [Enqueue 1; Claim; Settle] k).

(** *** Retrying a failed job *)

Inductive job_state : Type := waiting_retry | active | completed | failed.

Record job : Type := {
  attempts_made : nat;
  max_attempts : nat;
  backoff_policy : Queues.backoff_options;
  state : job_state
}.

(** A job enqueued with the default options of a queue. *)
Definition enqueue (q : Queues.queue) : job :=
  {| attempts_made := 0;
     max_attempts := Queues.attempts (Queues.defaultJobOptions q);
     backoff_policy := Queues.backoff (Queues.defaultJobOptions q);
     state := waiting_retry |}.

(** Modelled from the spec: the delay chosen by the store (missing) for a
    job that has failed [n] times, "exponential: delay = base *
    2^(attempts_made - 1)".  No ceiling is given, none is applied. *)
Definition backoff_delay (p : Queues.backoff_options) (n : nat) : Z :=
  match Queues.type p with
  | Queues.exponential => Queues.delay p * 2 ^ (Z.of_nat n - 1)
  | Queues.fixed => Queues.delay p
  end.

(** Modelled from the spec: success report (store side, missing).  "On
    success: report completion to the store." *)
Definition report_success (j : job) : job :=
  {| attempts_made := attempts_made j; max_attempts := max_attempts j;
     backoff_policy := backoff_policy j; state := completed |}.

(** Modelled from the spec: failure report (store side, missing).  "The
    store increments attempts_made; if attempts_made < max_attempts, it
    re-queues the job after a delay computed by backoff_policy; otherwise
    the job transitions to failed."  The second component is the delay
    before the job is available again. *)
Definition report_failure (j : job) : job * option Z :=
  let n := S (attempts_made j) in
  if (n <? max_attempts j)%nat then
    ({| attempts_made := n; max_attempts := max_attempts j;
        backoff_policy := backoff_policy j; state := waiting_retry |},
     Some (backoff_delay (backoff_policy j) n))
  else
    ({| attempts_made := n; max_attempts := max_attempts j;
        backoff_policy := backoff_policy j; state := failed |},
     None).

(** What one job went through: handler invocations and the delays it
    waited out, oldest first. *)
Record history : Type := { invocations : nat; delays : list Z }.

Definition total_delay (h : history) : Z := fold_right Z.add 0 (delays h).

(** Modelled from the spec: the execution protocol of the [Worker] class
    (missing) for one job, repeated until the job is completed or failed:
    "invoke the registered handler", "on success: report completion", "on
    handler failure: report failure".  [handler k] is how the [k]-th
    invocation settles; [fuel] bounds the number of re-queues. *)
Fixpoint execute (fuel : nat) (handler : nat -> outcome)
         (j : job) (h : history) : job * history :=
  let k := S (invocations h) in
  match handler k with
  | Fulfilled =>
      (report_success j, {| invocations := k; delays := delays h |})
  | Rejected _ =>
      match report_failure j with
      | (j', None) => (j', {| invocations := k; delays := delays h |})
      | (j', Some d) =>
          let h' := {| invocations := k; delays := delays h ++ [d] |} in
          match fuel with
          | O => (j', h')
          | S fuel' => execute fuel' handler j' h'
          end
      end
  end.

Definition process (handler : nat -> outcome) (j : job) : job * history :=
  execute (max_attempts j) handler j {| invocations := 0; delays := [] |}.

End Engine.

(* ------------------------------------------------------------------ *)
(** ** The worker process (workers/index) *)

Module Workers.

Record worker_def : Type := {
  queue : string;
  options : Engine.worker_options
}.

Definition checkSourceWorker : worker_def :=
  {| queue := Queues.CHECK_SOURCE_QUEUE;
     options :=
       {| Engine.concurrency := 5;
          Engine.limiter :=
            Some {| Engine.max := 10; Engine.duration := 1000 |} |} |}.

Definition notificationWorker : worker_def :=
  {| queue := Queues.NOTIFICATION_QUEUE;
     options := {| Engine.concurrency := 10; Engine.limiter := None |} |}.

Definition SCHEDULER_INTERVAL : Z := 5 * 60 * 1000.

(** The handle returned by [setInterval]: next firing time, and whether
    [clearInterval] has been applied to it. *)
Record timer : Type := { period : Z; due : Z; cleared : bool }.

(** A worker as the process sees it: [close()] has been called or not,
    and the number of processor invocations that have not settled. *)
Record worker : Type := { closing : bool; in_flight : nat }.

(** Modelled from the spec: whether a worker of the queue library (the
    [Worker] class, missing) claims jobs.  A worker asked to close is "to
    stop accepting new job claims while allowing any already-active
    handler invocations to finish". *)
Definition claims_jobs (wk : worker) : bool := negb (closing wk).

(** Suspended async calls, named after the [await] they stand at. *)
Inductive task : Type :=
| AwaitInitialRun                      (* startScheduler, first await *)
| AwaitCycle                           (* interval callback *)
| AwaitWorkersClosed (sg : signal)     (* shutdown, Promise.all *)
| AwaitDisconnect (sg : signal).       (* shutdown, inside disconnectRedis *)

Record proc : Type := {
  now : Z;
  schedulerInterval : option timer;
  checkSource : worker;
  notification : worker;
  redis : Redis.client;
  tasks : list task;
  exited : option Z;
  trace : list action                  (* newest first *)
}.

(** What the environment of the process can do to it. *)
Inductive event : Type :=
| Elapse (d : Z)
| TimerFire
| Signal (sg : signal)
| JobClaimed (w : worker_id)
| JobSettled (w : worker_id) (id : string) (o : outcome)
| Settle (i : nat) (o : outcome)
| RedisStatus (st : Redis.status).

(** *** Field updates *)

Definition emit (out : list action) (s : proc) : proc :=
  {| now := now s; schedulerInterval := schedulerInterval s;
     checkSource := checkSource s; notification := notification s;
     redis := redis s; tasks := tasks s; exited := exited s;
     trace := rev out ++ trace s |}.

Definition set_now (t : Z) (s : proc) : proc :=
  {| now := t; schedulerInterval := schedulerInterval s;
     checkSource := checkSource s; notification := notification s;
     redis := redis s; tasks := tasks s; exited := exited s;
     trace := trace s |}.

Definition set_timer (t : option timer) (s : proc) : proc :=
  {| now := now s; schedulerInterval := t;
     checkSource := checkSource s; notification := notification s;
     redis := redis s; tasks := tasks s; exited := exited s;
     trace := trace s |}.

Definition set_redis (r : Redis.client) (s : proc) : proc :=
  {| now := now s; schedulerInterval := schedulerInterval s;
     checkSource := checkSource s; notification := notification s;
     redis := r; tasks := tasks s; exited := exited s;
     trace := trace s |}.

Definition set_tasks (l : list task) (s : proc) : proc :=
  {| now := now s; schedulerInterval := schedulerInterval s;
     checkSource := checkSource s; notification := notification s;
     redis := redis s; tasks := l; exited := exited s;
     trace := trace s |}.

Definition set_exited (c : Z) (s : proc) : proc :=
  {| now := now s; schedulerInterval := schedulerInterval s;
     checkSource := checkSource s; notification := notification s;
     redis := redis s; tasks := tasks s; exited := Some c;
     trace := trace s |}.

Definition worker_of (s : proc) (w : worker_id) : worker :=
  match w with
  | CheckSource => checkSource s
  | Notification => notification s
  end.

Definition set_worker (w : worker_id) (v : worker) (s : proc) : proc :=
  {| now := now s; schedulerInterval := schedulerInterval s;
     checkSource := match w with CheckSource => v | _ => checkSource s end;
     notification := match w with Notification => v | _ => notification s end;
     redis := redis s; tasks := tasks s; exited := exited s;
     trace := trace s |}.

Definition suspend (k : task) (s : proc) : proc :=
  set_tasks (tasks s ++ [k]) s.

Fixpoint remove_nth {A : Type} (i : nat) (l : list A) : list A :=
  match l, i with
  | [], _ => []
  | _ :: r, O => r
  | x :: r, S i' => x :: remove_nth i' r
  end.

Definition resume (i : nat) (s : proc) : proc :=
  set_tasks (remove_nth i (tasks s)) s.

(** *** The scheduler loop *)

(** [startScheduler], up to [await runMasterScheduler()]. *)
Definition startScheduler (s : proc) : proc :=
  suspend AwaitInitialRun (emit [RunMasterScheduler] s).

(** [startScheduler], after the initial run has settled. *)
Definition startScheduler_resume (o : outcome) (s : proc) : proc :=
  let s1 :=
    match o with
    | Fulfilled => s
    | Rejected e =>
        emit [ConsoleError "[Scheduler] Initial run failed:" (Some e)] s
    end in
  emit [SetInterval SCHEDULER_INTERVAL]
    (set_timer (Some {| period := SCHEDULER_INTERVAL;
                        due := now s1 + SCHEDULER_INTERVAL;
                        cleared := false |}) s1).

(** The interval callback, up to its [await]. *)
Definition on_interval (s : proc) : proc :=
  suspend AwaitCycle (emit [RunMasterScheduler] s).

(** The interval callback, after the cycle has settled. *)
Definition on_interval_resume (o : outcome) (s : proc) : proc :=
  match o with
  | Fulfilled => s
  | Rejected e =>
      emit [ConsoleError "[Scheduler] Error in master scheduler:" (Some e)] s
  end.

(** *** Shutdown *)

Definition shutdown_banner (sg : signal) : string :=
  ("[Workers] Received " ++ signal_name sg
     ++ ", shutting down gracefully...")%string.

(** [clearInterval(schedulerInterval)], the variable holding handle [t]. *)
Definition clearInterval (t : timer) (s : proc) : proc :=
  emit [ClearInterval]
    (set_timer (Some {| period := period t; due := due t;
                        cleared := true |}) s).

(** Modelled from the spec: the call [worker.close()] of the queue
    library (the [Worker] class, missing): "graceful close, not forceful
    kill".  The worker is marked closing; its handlers in flight stay. *)
Definition close (w : worker_id) (s : proc) : proc :=
  emit [WorkerClose w]
    (set_worker w {| closing := true;
                     in_flight := in_flight (worker_of s w) |} s).

(** Modelled from the spec: when the promises of both [close()] calls
    (queue library, missing) can be fulfilled: "once all Worker Engines
    report their in-flight handlers complete". *)
Definition drained (s : proc) : bool :=
  closing (checkSource s) && closing (notification s)
  && (in_flight (checkSource s) =? 0)%nat
  && (in_flight (notification s) =? 0)%nat.

(** [shutdown(signal)], up to [await Promise.all([...])]. *)
Definition shutdown (sg : signal) (s : proc) : proc :=
  let s1 := emit [ConsoleLog (shutdown_banner sg)] s in
  let s2 :=
    match schedulerInterval s1 with
    | Some t => clearInterval t s1
    | None => s1
    end in
  let s3 := close Notification (close CheckSource s2) in
  suspend (AwaitWorkersClosed sg) s3.

(** [shutdown], when [Promise.all] rejects: there is no [catch] around
    the [await], so the rest of the function is skipped and the promise of
    [shutdown] rejects; the signal handler has dropped that promise.  What
    the runtime does with an unhandled rejection is not the module's. *)
Definition shutdown_rejected (e : js_error) (s : proc) : proc :=
  emit [UnhandledRejection e] s.

(** The last two statements of [shutdown]. *)
Definition shutdown_finish (s : proc) : proc :=
  set_exited 0
    (emit [ConsoleLog "[Workers] Shutdown complete"; ProcessExit 0] s).

(** [shutdown], once both workers are closed: call [disconnectRedis]. *)
Definition shutdown_disconnect (sg : signal) (s : proc) : proc :=
  match Redis.disconnectRedis (redis s) with
  | (r, out, Redis.Resolved) => shutdown_finish (emit out (set_redis r s))
  | (r, out, Redis.AwaitingQuit) =>
      suspend (AwaitDisconnect sg) (emit out (set_redis r s))
  | (r, out, Redis.Failed e) => shutdown_rejected e (emit out (set_redis r s))
  end.

(** [shutdown], once [redis.quit()] has settled inside [disconnectRedis]. *)
Definition shutdown_disconnected (o : outcome) (s : proc) : proc :=
  match Redis.disconnectRedis_resume o (redis s) with
  | (r, out, Redis.Resolved) => shutdown_finish (emit out (set_redis r s))
  | (r, out, Redis.Failed e) => shutdown_rejected e (emit out (set_redis r s))
  | (r, out, Redis.AwaitingQuit) => emit out (set_redis r s)
  end.

(** *** Worker event listeners *)

Definition worker_label (w : worker_id) : string :=
  match w with
  | CheckSource => "[CheckSource]"
  | Notification => "[Notification]"
  end.

Definition on_settled (w : worker_id) (id : string) (o : outcome) : action :=
  match o with
  | Fulfilled =>
      ConsoleLog (worker_label w ++ " Job " ++ id ++ " completed")%string
  | Rejected e =>
      ConsoleError (worker_label w ++ " Job " ++ id ++ " failed:")%string
                   (Some e)
  end.

(** *** One turn of the event loop

    A turn runs one handler to its next [await] or to its end.  The promise
    awaited by a shutdown sequence at [Promise.all] cannot be fulfilled
    before both workers have drained; it can be rejected at any time. *)

Definition step (s : proc) (e : event) : proc :=
  match exited s with
  | Some _ => s
  | None =>
      match e with
      | Elapse d => set_now (now s + Z.max 0 d) s
      | TimerFire =>
          match schedulerInterval s with
          | Some t =>
              if negb (cleared t) && (due t <=? now s) then
                on_interval
                  (set_timer (Some {| period := period t;
                                      due := now s + period t;
                                      cleared := false |}) s)
              else s
          | None => s
          end
      | Signal sg => shutdown sg s
      | JobClaimed w =>
          if claims_jobs (worker_of s w) then
            emit [HandlerStart w]
              (set_worker w
                 {| closing := closing (worker_of s w);
                    in_flight := S (in_flight (worker_of s w)) |} s)
          else s
      | JobSettled w id o =>
          match in_flight (worker_of s w) with
          | O => s
          | S n =>
              emit [HandlerEnd w; on_settled w id o]
                (set_worker w
                   {| closing := closing (worker_of s w);
                      in_flight := n |} s)
          end
      | Settle i o =>
          match nth_error (tasks s) i with
          | None => s
          | Some AwaitInitialRun => startScheduler_resume o (resume i s)
          | Some AwaitCycle => on_interval_resume o (resume i s)
          | Some (AwaitWorkersClosed sg) =>
              match o with
              | Fulfilled =>
                  (* not before both workers have drained *)
                  if drained s then shutdown_disconnect sg (resume i s)
                  else s
              | Rejected e => shutdown_rejected e (resume i s)
              end
          | Some (AwaitDisconnect sg) =>
              shutdown_disconnected o (resume i s)
          end
      | RedisStatus st => set_redis {| Redis.state := st |} s
      end
  end.

Definition run (s : proc) (l : list event) : proc := fold_left step l s.

(** The process right after the module has been loaded. *)
Definition boot : proc :=
  let idle := {| closing := false; in_flight := 0 |} in
  let s0 :=
    {| now := 0; schedulerInterval := None;
       checkSource := idle; notification := idle;
       redis := {| Redis.state := Redis.Wait |};
       tasks := []; exited := None; trace := [] |} in
  emit [ConsoleLog "[Workers] Active and listening for jobs"]
    (startScheduler (emit [ConsoleLog "[Workers] Starting..."] s0)).

(** Actions in the order they happened. *)
Definition log (s : proc) : list action := rev (trace s).

(** *** Reading a trace

    The functions below take a trace newest first, so that the tail of
    the list at an action is everything that happened before it. *)

Definition is_banner (a : action) : bool :=
  match a with
  | ConsoleLog t =>
      String.eqb t (shutdown_banner SIGTERM)
      || String.eqb t (shutdown_banner SIGINT)
  | _ => false
  end.

(** Shutdown sequences started so far: one banner is printed by the first
    statement of each call of [shutdown]. *)
Definition shutdown_starts (s : proc) : nat :=
  length (filter is_banner (trace s)).

Definition is_draining (k : task) : bool :=
  match k with AwaitWorkersClosed _ => true | _ => false end.

(** Shutdown sequences suspended on the closing of the workers. *)
Definition draining (s : proc) : nat :=
  length (filter is_draining (tasks s)).

Definition is_signal (e : event) : bool :=
  match e with Signal _ => true | _ => false end.

Definition signals (l : list event) : nat := length (filter is_signal l).

Definition is_close (w : worker_id) (a : action) : bool :=
  match a with WorkerClose w' => worker_id_eqb w w' | _ => false end.

Definition is_exit (a : action) : bool :=
  match a with ProcessExit _ => true | _ => false end.

Definition is_cycle (a : action) : bool :=
  match a with RunMasterScheduler => true | _ => false end.

(** Processor invocations of worker [w] that have begun and not settled. *)
Fixpoint handlers_running (w : worker_id) (tr : list action) : nat :=
  match tr with
  | [] => 0
  | HandlerStart w' :: before =>
      if worker_id_eqb w w' then S (handlers_running w before)
      else handlers_running w before
  | HandlerEnd w' :: before =>
      if worker_id_eqb w w' then Nat.pred (handlers_running w before)
      else handlers_running w before
  | _ :: before => handlers_running w before
  end.

(** Whether an interval timer is armed: the latest of [setInterval] and
    [clearInterval] decides. *)
Fixpoint timer_live (tr : list action) : bool :=
  match tr with
  | [] => false
  | SetInterval _ :: _ => true
  | ClearInterval :: _ => false
  | _ :: before => timer_live before
  end.

Definition workers_drained (before : list action) : bool :=
  existsb (is_close CheckSource) before
  && existsb (is_close Notification) before
  && (handlers_running CheckSource before =? 0)%nat
  && (handlers_running Notification before =? 0)%nat.

(** What must have happened before an action of the shutdown sequence. *)
Definition permitted (a : action) (before : list action) : bool :=
  negb (existsb is_exit before)
  && match a with
     | WorkerClose _ => negb (timer_live before)
     | HandlerStart w => negb (existsb (is_close w) before)
     | RedisQuit | RedisDisconnect => workers_drained before
     | ProcessExit c => (c =? 0) && workers_drained before
     | _ => true
     end.

Fixpoint in_order (tr : list action) : bool :=
  match tr with
  | [] => true
  | a :: before => permitted a before && in_order before
  end.

Definition is_disconnecting (k : task) : bool :=
  match k with AwaitDisconnect _ => true | _ => false end.

(** The state agrees with its trace, and the trace is in order. *)
Definition consistent (s : proc) : Prop :=
  in_order (trace s) = true
  /\ handlers_running CheckSource (trace s) = in_flight (checkSource s)
  /\ handlers_running Notification (trace s) = in_flight (notification s)
  /\ existsb (is_close CheckSource) (trace s) = closing (checkSource s)
  /\ existsb (is_close Notification) (trace s) = closing (notification s)
  /\ timer_live (trace s)
     = match schedulerInterval s with
       | Some t => negb (cleared t)
       | None => false
       end
  /\ existsb is_exit (trace s)
     = match exited s with Some _ => true | None => false end
  /\ (existsb is_disconnecting (tasks s) = true -> drained s = true)
  /\ match exited s with
     | Some c => c = 0 /\ drained s = true
     | None => True
     end.

Definition is_scheduler_task (k : task) : bool :=
  match k with AwaitInitialRun | AwaitCycle => true | _ => false end.

Definition is_initial_run (k : task) : bool :=
  match k with AwaitInitialRun => true | _ => false end.

(** The scheduler loop is alive: the process runs, no shutdown is under
    way, and either the initial run is still awaited (no timer yet) or
    the timer is armed with the fixed period, its next firing at most
    one period away. *)
Definition scheduler_alive (s : proc) : Prop :=
  exited s = None
  /\ forallb is_scheduler_task (tasks s) = true
  /\ match schedulerInterval s with
     | None => existsb is_initial_run (tasks s) = true
     | Some t =>
         period t = SCHEDULER_INTERVAL /\ cleared t = false
         /\ due t <= now s + SCHEDULER_INTERVAL
     end.

End Workers.

(* ------------------------------------------------------------------ *)
(** ** Reading the scheduler loop off a trace *)

Module Scheduler.

Import Workers.

(** Runs of the production routine started so far. *)
Definition cycles (s : proc) : nat := length (filter is_cycle (trace s)).

(** Calls of [startScheduler] still awaiting the initial run. *)
Definition initial_pending (s : proc) : nat :=
  length (filter is_initial_run (tasks s)).

(** [startScheduler] is called once: its initial run is awaited exactly as
    long as the variable [schedulerInterval] is still [null]. *)
Definition armed_once (s : proc) : Prop :=
  initial_pending s
  = match schedulerInterval s with None => 1%nat | Some _ => 0%nat end.

(** The timer has been set and cleared, and nothing can set it again. *)
Definition stopped (s : proc) : Prop :=
  initial_pending s = 0%nat
  /\ exists t, schedulerInterval s = Some t /\ cleared t = true.


End Scheduler.
(* ------------------------------------------------------------------ *)
(** ** Request rate limiting (lib/api-utils) *)

Module RateLimit.

Record RateLimitEntry : Type := { count : Z; resetTime : Z }.

(** The [Map] inside [RateLimitStore], as the lookup it gives: nothing in
    the module reads the order of its entries. *)
Definition store : Type := string -> option RateLimitEntry.

Definition empty : store := fun _ => None.

Definition get (m : store) (key : string) : option RateLimitEntry := m key.

Definition set (m : store) (key : string) (entry : RateLimitEntry) : store :=
  fun k => if String.eqb k key then Some entry else m k.

Definition delete (m : store) (key : string) : store :=
  fun k => if String.eqb k key then None else m k.

(** [cleanup()], run every five minutes by the store's own timer: every
    entry whose window is over at [now] is deleted. *)
Definition cleanup (now : Z) (m : store) : store :=
  fun k =>
    match m k with
    | Some entry => if resetTime entry <? now then None else Some entry
    | None => None
    end.

(** [checkRateLimit(key, maxRequests, windowMs)] called at time [now]: the
    store afterwards, and whether the request is let through. *)
Definition checkRateLimit (key : string) (maxRequests windowMs : Z)
           (now : Z) (m : store) : store * bool :=
  match get m key with
  | None =>
      (set m key {| count := 1; resetTime := now + windowMs |}, true)
  | Some record =>
      if resetTime record <? now then
        (set m key {| count := 1; resetTime := now + windowMs |}, true)
      else if maxRequests <=? count record then (m, false)
      else
        (set m key {| count := count record + 1;
                      resetTime := resetTime record |}, true)
  end.

Definition clearRateLimit (key : string) (m : store) : store := delete m key.

(** [checkAuthRateLimit(ip)]: five attempts a minute. *)
Definition checkAuthRateLimit (ip : string) (now : Z) (m : store)
  : store * bool :=
  checkRateLimit ("auth:" ++ ip)%string 5 60000 now m.

(** One call of [checkRateLimit], as a caller makes it. *)
Record request : Type := {
  req_key : string;
  req_max : Z;
  req_window : Z;
  req_time : Z
}.

(** Calls made one after the other, with the answer to each. *)
Fixpoint replay (l : list request) (m : store) : store * list bool :=
  match l with
  | [] => (m, [])
  | r :: rest =>
      let '(m1, ok) :=
        checkRateLimit (req_key r) (req_max r) (req_window r) (req_time r) m in
      let '(m2, oks) := replay rest m1 in
      (m2, ok :: oks)
  end.

(** Calls for one key with the same limits, at the times [ts]. *)
Definition burst (key : string) (maxRequests windowMs : Z) (ts : list Z)
  : list request :=
  map (fun t => {| req_key := key; req_max := maxRequests;
                   req_window := windowMs; req_time := t |}) ts.

Definition allowed (oks : list bool) : nat :=
  length (filter (fun b => b) oks).

(** No window is open for [key] at time [now]. *)
Definition no_window (m : store) (key : string) (now : Z) : bool :=
  match get m key with
  | None => true
  | Some record => resetTime record <? now
  end.

(** From time [t] on the two stores answer alike: for every key they hold
    the same entry, or neither has a window still open at [t]. *)
Definition agree_from (t : Z) (m1 m2 : store) : Prop :=
  forall k,
    get m1 k = get m2 k
    \/ (no_window m1 k t = true /\ no_window m2 k t = true).

(** Calls let through among those made at a time in [[a, b]]. *)
Definition allowed_between (a b : Z) (ts : list Z) (oks : list bool) : nat :=
  length (filter (fun p => snd p && (a <=? fst p) && (fst p <=? b))
                 (combine ts oks)).

(** Times that never go back, starting from [t]. *)
Fixpoint ascending (t : Z) (ts : list Z) : bool :=
  match ts with
  | [] => true
  | t' :: rest => (t <=? t') && ascending t' rest
  end.

(** How many of the calls let through so far can lie in the span
    [[a, a + windowMs]], given the count [c] and reset time [r] of the
    entry: the window was opened before the span, inside it, or after. *)
Definition room (maxRequests windowMs a c r : Z) : Z :=
  if r - windowMs <? a then c - 1
  else if r - windowMs <=? a + windowMs then Z.max 1 maxRequests - 1 + c
       else 2 * Z.max 1 maxRequests - 1.

End RateLimit.

(* ------------------------------------------------------------------ *)
(** ** Text handling of the request layer (lib/api-utils, search route) *)

Module Text.

(** A JavaScript string is a sequence of UTF-16 code units; the functions
    below compare code units with fixed characters and never look at a
    code point as a whole. *)
Definition jsstring : Type := list Z.

(** The code units of a literal, all below 256. *)
Definition str (s : string) : jsstring :=
  map (fun c => Z.of_nat (nat_of_ascii c)) (list_ascii_of_string s).

Definition amp : Z := 38.
Definition lt : Z := 60.
Definition gt : Z := 62.
Definition quot : Z := 34.
Definition apos : Z := 39.
Definition backslash : Z := 92.
Definition percent : Z := 37.
Definition underscore : Z := 95.
Definition hyphen : Z := 45.
Definition equals_sign : Z := 61.

(** The table [entities] of [htmlEncode]. *)
Definition entities : list (Z * jsstring) :=
  [ (amp, str "&amp;"); (lt, str "&lt;"); (gt, str "&gt;");
    (quot, str "&quot;"); (apos, str "&#x27;") ].

Fixpoint lookup (char : Z) (table : list (Z * jsstring)) : option jsstring :=
  match table with
  | [] => None
  | (k, v) :: rest => if char =? k then Some v else lookup char rest
  end.

(** [input.replace(re, (char) => entities[char] || char)], where the
    global pattern [re] is the class of the five keys of the table: every
    other code unit is kept. *)
Definition replacer (char : Z) : jsstring :=
  match lookup char entities with
  | Some entity => entity
  | None => [char]
  end.

Definition htmlEncode (input : jsstring) : jsstring :=
  flat_map replacer input.

(** The characters that can open or close markup or an attribute value. *)
Definition is_markup (c : Z) : bool :=
  (c =? lt) || (c =? gt) || (c =? quot) || (c =? apos).

(** [s.replace(/c/g, by)] for a pattern that is one fixed code unit and a
    replacement without [$]. *)
Definition replaceAll (c : Z) (by_ : jsstring) (s : jsstring) : jsstring :=
  flat_map (fun x => if x =? c then by_ else [x]) s.

(** [escapeILikePattern] of the search route: three replacements, the
    backslashes first. *)
Definition escapeILikePattern (input : jsstring) : jsstring :=
  replaceAll underscore (str "\_")
    (replaceAll percent (str "\%")
       (replaceAll backslash (str "\\") input)).

(** The effect of the three replacements on one code unit. *)
Definition escape_unit (c : Z) : jsstring :=
  if c =? backslash then [backslash; backslash]
  else if c =? percent then [backslash; percent]
  else if c =? underscore then [backslash; underscore]
  else [c].

(** What a pattern of [LIKE]/[ILIKE] asks for, position by position. *)
Inductive token : Type :=
| Lit (c : Z)
| AnyString
| AnyChar.

(** How the database reads a pattern, with the special meaning the comment
    on [escapeILikePattern] gives to [%], [_] and [\]: a backslash makes
    the next code unit literal, [%] stands for any string, [_] for any one
    character; a pattern ending in a lone backslash is refused. *)
Fixpoint read_pattern (p : jsstring) : option (list token) :=
  match p with
  | [] => Some []
  | c :: rest =>
      if c =? backslash then
        match rest with
        | [] => None
        | d :: rest' => option_map (cons (Lit d)) (read_pattern rest')
        end
      else if c =? percent then option_map (cons AnyString) (read_pattern rest)
      else if c =? underscore then option_map (cons AnyChar) (read_pattern rest)
      else option_map (cons (Lit c)) (read_pattern rest)
  end.

(** White space and line terminators of the language: what [trim] removes
    and what [\s] matches. *)
Definition is_white_space (c : Z) : bool :=
  (c =? 9) || (c =? 10) || (c =? 11) || (c =? 12) || (c =? 13) || (c =? 32)
  || (c =? 160) || (c =? 5760) || ((8192 <=? c) && (c <=? 8202))
  || (c =? 8232) || (c =? 8233) || (c =? 8239) || (c =? 8287)
  || (c =? 12288) || (c =? 65279).

(** [\w], that is [[A-Za-z0-9_]]. *)
Definition is_word (c : Z) : bool :=
  ((65 <=? c) && (c <=? 90)) || ((97 <=? c) && (c <=? 122))
  || ((48 <=? c) && (c <=? 57)) || (c =? underscore).

Fixpoint trimStart (s : jsstring) : jsstring :=
  match s with
  | [] => []
  | c :: rest => if is_white_space c then trimStart rest else s
  end.

Definition trimEnd (s : jsstring) : jsstring := rev (trimStart (rev s)).

Definition trim (s : jsstring) : jsstring := trimEnd (trimStart s).

(** [s.slice(0, n)] for an integer [n]: a negative [n] counts from the
    end. *)
Definition slice0 (s : jsstring) (n : Z) : jsstring :=
  if n <? 0 then firstn (Z.to_nat (Z.of_nat (length s) + n)) s
  else firstn (Z.to_nat n) s.

(** [sanitizeText(input, maxLength)]. *)
Definition sanitizeText (input : jsstring) (maxLength : Z) : jsstring :=
  slice0 (trim input) maxLength.

(** [.replace(/<[^>]*>/g, '')]: from a [<] that has a [>] somewhere after
    it, everything up to and including the first such [>] is dropped;
    [inside] says that the scan is within such a match. *)
Fixpoint strip_tags (inside : bool) (s : jsstring) : jsstring :=
  match s with
  | [] => []
  | c :: rest =>
      if inside then
        if c =? gt then strip_tags false rest else strip_tags true rest
      else if (c =? lt) && existsb (Z.eqb gt) rest then strip_tags true rest
           else c :: strip_tags false rest
  end.

(** Equality of code units under the flag [i] of a regular expression
    without the flag [u]: letters of the basic alphabet match in either
    case, and no other code unit matches one of them. *)
Definition upper (c : Z) : Z :=
  if (97 <=? c) && (c <=? 122) then c - 32 else c.

Definition eq_ci (a b : Z) : bool := upper a =? upper b.

Fixpoint starts_with_ci (p s : jsstring) : bool :=
  match p, s with
  | [], _ => true
  | _ :: _, [] => false
  | a :: p', b :: s' => eq_ci a b && starts_with_ci p' s'
  end.

(** [.replace(/javascript:/gi, '')]: [skip] counts the code units of the
    current match still to be dropped. *)
Fixpoint remove_protocol (skip : nat) (s : jsstring) : jsstring :=
  match s with
  | [] => []
  | c :: rest =>
      match skip with
      | S k => remove_protocol k rest
      | O =>
          if starts_with_ci (str "javascript:") s
          then remove_protocol 10 rest
          else c :: remove_protocol 0 rest
      end
  end.

Fixpoint span (f : Z -> bool) (s : jsstring) : nat :=
  match s with
  | [] => 0%nat
  | c :: rest => if f c then S (span f rest) else 0%nat
  end.

(** The length of the match of [/on\w+\s*=/i] at the start of [s], if
    there is one: [on], the longest run of word characters (at least
    one), the longest run of white space, and [=].  Giving back part of a
    run never helps, since what follows a shorter run is a character of
    the run. *)
Definition match_handler (s : jsstring) : option nat :=
  match s with
  | o :: n :: rest =>
      if eq_ci o 111 && eq_ci n 110 then
        let w := span is_word rest in
        let k := span is_white_space (skipn w rest) in
        match w, skipn (w + k) rest with
        | S _, e :: _ => if e =? equals_sign then Some (2 + w + k + 1)%nat
                         else None
        | _, _ => None
        end
      else None
  | _ => None
  end.

(** [.replace(/on\w+\s*=/gi, '')]. *)
Fixpoint remove_handlers (skip : nat) (s : jsstring) : jsstring :=
  match s with
  | [] => []
  | c :: rest =>
      match skip with
      | S k => remove_handlers k rest
      | O =>
          match match_handler s with
          | Some n => remove_handlers (pred n) rest
          | None => c :: remove_handlers 0 rest
          end
      end
  end.

(** [sanitizeInput(input, maxLength)]. *)
Definition sanitizeInput (input : jsstring) (maxLength : Z) : jsstring :=
  remove_handlers 0
    (remove_protocol 0
       (strip_tags false (slice0 (trim input) maxLength))).

(** A [<] with a [>] somewhere after it. *)
Fixpoint has_tag (s : jsstring) : bool :=
  match s with
  | [] => false
  | c :: rest => ((c =? lt) && existsb (Z.eqb gt) rest) || has_tag rest
  end.

(** [l] is [s] with some code units left out. *)
Inductive subseq : jsstring -> jsstring -> Prop :=
| subseq_nil : subseq [] []
| subseq_drop (c : Z) (l s : jsstring) : subseq l s -> subseq l (c :: s)
| subseq_keep (c : Z) (l s : jsstring) :
    subseq l s -> subseq (c :: l) (c :: s).

(** [/^[a-zA-Z0-9_-]{3,30}$/.test(username)]. *)
Definition is_name_char (c : Z) : bool := is_word c || (c =? hyphen).

Definition validateUsername (username : jsstring) : bool :=
  (3 <=? length username)%nat && (length username <=? 30)%nat
  && forallb is_name_char username.

End Text.

(* ------------------------------------------------------------------ *)
(** ** Paging of list responses (lib/api-utils) *)

Module Pagination.

Import Text.

(** A number of the request layer: [None] is [NaN], [Some z] the integer
    [z].  The arithmetic below is that of integers, which the arithmetic
    of the language agrees with on safe integers ([isSafeInteger] below);
    the theorems that compute with a value ask for it to be safe. *)
Definition number : Type := option Z.

(** [Math.max] and [Math.min] give [NaN] as soon as an argument is. *)
Definition Math_max (a b : number) : number :=
  match a, b with
  | Some x, Some y => Some (Z.max x y)
  | _, _ => None
  end.

Definition Math_min (a b : number) : number :=
  match a, b with
  | Some x, Some y => Some (Z.min x y)
  | _, _ => None
  end.

Definition is_digit (c : Z) : bool := (48 <=? c) && (c <=? 57).

(** The value of the longest run of decimal digits at the start. *)
Fixpoint digits (acc : Z) (s : jsstring) : Z :=
  match s with
  | [] => acc
  | c :: rest => if is_digit c then digits (10 * acc + (c - 48)) rest else acc
  end.

Definition unsigned (s : jsstring) : number :=
  match s with
  | c :: _ => if is_digit c then Some (digits 0 s) else None
  | [] => None
  end.

(** [parseInt(s, 10)]: leading white space is skipped, one sign is read,
    then the longest run of digits; [NaN] when there is no digit. *)
Definition parseInt (s : jsstring) : number :=
  match trimStart s with
  | [] => None
  | c :: rest =>
      if c =? 45 then option_map Z.opp (unsigned rest)
      else if c =? 43 then unsigned rest
      else unsigned (c :: rest)
  end.

(** The query string, as the pairs of a [URLSearchParams]. *)
Definition URLSearchParams : Type := list (string * jsstring).

(** [searchParams.get(name)]: the first value of that name, or [null]. *)
Fixpoint get (searchParams : URLSearchParams) (name : string)
  : option jsstring :=
  match searchParams with
  | [] => None
  | (k, v) :: rest => if String.eqb k name then Some v else get rest name
  end.

(** [value || fallback]: [null] and the empty string give the fallback. *)
Definition or_else (value : option jsstring) (fallback : jsstring)
  : jsstring :=
  match value with
  | Some (c :: s) => c :: s
  | _ => fallback
  end.

Record page_window : Type := {
  page : number;
  limit : number;
  offset : number
}.

(** [parsePaginationParams(searchParams)]. *)
Definition parsePaginationParams (searchParams : URLSearchParams)
  : page_window :=
  let page :=
    Math_max (Some 1)
      (parseInt (or_else (get searchParams "page") (str "1"))) in
  let limit :=
    Math_min (Some 100)
      (Math_max (Some 1)
         (parseInt (or_else (get searchParams "limit") (str "20")))) in
  let offset := parseInt (or_else (get searchParams "offset") (str "0")) in
  let actualPage :=
    match offset with
    | Some o =>
        if 0 <? o
        then match limit with Some l => Some (o / l + 1) | None => None end
        else page
    | None => page
    end in
  {| page := actualPage;
     limit := limit;
     offset := match actualPage, limit with
               | Some p, Some l => Some ((p - 1) * l)
               | _, _ => None
               end |}.

(** The [pagination] object of [createPaginatedResponse], as it is written
    to the response: a value that is not a finite number ([NaN], or the
    infinity a division by zero gives) is written as [null], here [None]. *)
Record page_info : Type := {
  info_page : number;
  info_limit : number;
  info_total : number;
  totalPages : number;
  hasMore : bool
}.

(** [Math.ceil(total / limit)]. *)
Definition ceil_div (total limit : number) : number :=
  match total, limit with
  | Some t, Some l => if l =? 0 then None else Some (- ((- t) / l))
  | _, _ => None
  end.

(** [a * b < c], false as soon as one side is [NaN]. *)
Definition product_below (a b c : number) : bool :=
  match a, b, c with
  | Some x, Some y, Some z => x * y <? z
  | _, _, _ => false
  end.

(** [createPaginatedResponse(items, pagination)]: the [pagination] part. *)
Definition createPaginatedResponse (page limit total : number) : page_info :=
  {| info_page := page;
     info_limit := limit;
     info_total := total;
     totalPages := ceil_div total limit;
     hasMore := product_below page limit total |}.

(** [Number.isSafeInteger]: the integers on which the arithmetic of the
    language is that of integers. *)
Definition isSafeInteger (z : Z) : bool := Z.abs z <=? 2 ^ 53 - 1.

End Pagination.

(* ------------------------------------------------------------------ *)
(** ** Who may see a feed (lib/social-utils) *)

Module SocialUtils.

Inductive feed_type : Type := global | following | personal.

(** The column [privacy_settings] of a user: each flag is [true], [false]
    or absent. *)
Record privacy_settings : Type := {
  activity_public : option bool;
  followers_public : option bool;
  following_public : option bool
}.

(** What the queries of [getActivityFeed] find. *)
Record database : Type := {
  (** [follow.findMany({ where: { follower_id } })], as the followed ids *)
  following_ids : string -> list string;
  (** [user.findUnique({ where: { id } })]: no row, or the row's
      settings, which may be [null] *)
  user_settings : string -> option (option privacy_settings)
}.

(** The [where] clause of the activity query. *)
Inductive where_input : Type :=
| own_activities (user_id : string)
| public_activities_of (user_ids : list string)
| public_activities.

(** The feed returned: the empty page, or the page the query gives. *)
Inductive feed : Type :=
| empty_feed
| activities (where_ : where_input).

(** A string used as a condition: [null], [undefined] and the empty
    string count as false. *)
Definition truthy (s : option string) : bool :=
  match s with
  | Some s => negb (String.eqb s "")
  | None => false
  end.

Definition is_personal (t : feed_type) : bool :=
  match t with personal => true | _ => false end.

Definition is_following (t : feed_type) : bool :=
  match t with following => true | _ => false end.

Definition same_id (a b : option string) : bool :=
  match a, b with
  | Some x, Some y => String.eqb x y
  | None, None => true
  | _, _ => false
  end.

(** [privacySettings?.activity_public === false]. *)
Definition activity_is_private (row : option privacy_settings) : bool :=
  match row with
  | Some settings =>
      match activity_public settings with
      | Some false => true
      | _ => false
      end
  | None => false
  end.

(** [getActivityFeed(userId, { type, viewerId })], the queries succeeding:
    first the [where] clause is chosen, with an early return for a
    follower of nobody; then the privacy check of a personal feed. *)
Definition getActivityFeed (db : database) (userId : option string)
           (type : feed_type) (viewerId : option string) : feed :=
  let chosen : option where_input :=
    match userId with
    | Some u =>
        if is_personal type && truthy userId then Some (own_activities u)
        else if is_following type && truthy userId then
               match following_ids db u with
               | [] => None
               | ids => Some (public_activities_of ids)
               end
             else Some public_activities
    | None => Some public_activities
    end in
  match chosen with
  | None => empty_feed
  | Some where_ =>
      if is_personal type && truthy userId && truthy viewerId
         && negb (same_id userId viewerId)
      then
        match userId with
        | Some u =>
            match user_settings db u with
            | Some row =>
                if activity_is_private row then empty_feed
                else activities where_
            | None => activities where_
            end
        | None => activities where_
        end
      else activities where_
  end.

End SocialUtils.

(* ================================================================== *)
(** * Properties *)

(* ------------------------------------------------------------------ *)
(** ** Store connection *)

Section RetryStrategy.

Import Redis.

Lemma retryStrategy_delay (t : Z) :
  t <= 20 -> retryStrategy t = ([], Some (Z.min (t * 200) 5000)).
Proof.
  intros Ht. unfold retryStrategy.
  destruct (20 <? t) eqn:E; [apply Z.ltb_lt in E; lia | reflexivity].
Qed.

(** Up to the attempt ceiling the delay is 200 ms per attempt made: the
    5000 ms cap is never the smaller operand. *)
Lemma retryStrategy_linear (t : Z) :
  t <= 20 -> snd (retryStrategy t) = Some (200 * t).
Proof.
  intros Ht. rewrite retryStrategy_delay by assumption. cbn [snd].
  f_equal. lia.
Qed.

Lemma retryStrategy_capped (t d : Z) :
  snd (retryStrategy t) = Some d -> d <= 5000.
Proof.
  unfold retryStrategy. destruct (20 <? t); cbn [snd]; [discriminate|].
  intros [= <-]. lia.
Qed.

(** Past twenty attempts the strategy prints the fatal message and
    returns no delay. *)
Lemma retryStrategy_gives_up (t : Z) :
  20 < t ->
  retryStrategy t =
    ([ConsoleError ("[Redis] Failed to connect after " ++ show_Z t
                      ++ " attempts. Giving up.")%string None], None).
Proof.
  intros Ht. unfold retryStrategy.
  destruct (20 <? t) eqn:E; [reflexivity | apply Z.ltb_ge in E; lia].
Qed.

(** C2 (the code departs from the claim).  The delays of the first
    three reconnection attempts are 200, 400 and 600 ms: they grow by a
    constant 200 ms, and no base [b] and ratio [r] make them
    [b * r^(t-1)]. *)
Theorem retryStrategy_not_exponential :
  snd (retryStrategy 1) = Some 200
  /\ snd (retryStrategy 2) = Some 400
  /\ snd (retryStrategy 3) = Some 600
  /\ ~ (exists b r : Z,
          forall t, 1 <= t <= 3 ->
                    snd (retryStrategy t) = Some (b * r ^ (t - 1))).
Proof.
  repeat split; try reflexivity.
  intros (b & r & H).
  pose proof (H 1 ltac:(lia)) as H1.
  pose proof (H 2 ltac:(lia)) as H2.
  pose proof (H 3 ltac:(lia)) as H3.
  rewrite retryStrategy_linear in H1, H2, H3 by lia.
  injection H1 as H1. injection H2 as H2. injection H3 as H3.
  change (Z.pow_pos r 1) with (r ^ 1) in H2.
  change (Z.pow_pos r 2) with (r ^ 2) in H3.
  rewrite Z.pow_1_r in H2. rewrite Z.pow_2_r in H3.
  nia.
Qed.

End RetryStrategy.

Section Disconnect.

Import Redis.

(** C9 as stated fails.  The client is connected (status ['ready']) and a
    first call succeeds: QUIT is acknowledged and the call resolves.  The
    module has not touched the status, so a second call made right away
    does not return early: it issues [quit] again (here that second
    [quit] fails and the connection is forced down). *)
Lemma second_disconnect_quits_again :
  disconnectRedis_run Fulfilled {| state := Ready |}
  = ({| state := Ready |},
     [RedisQuit; ConsoleLog "[Redis] Disconnected"], Resolved)
  /\ disconnectRedis_run (Rejected "Connection is closed.")
       (fst (fst (disconnectRedis_run Fulfilled {| state := Ready |})))
     = ({| state := Ready |},
        [RedisQuit;
         ConsoleError "[Redis] Error during disconnect:"
                      (Some "Connection is closed.");
         RedisDisconnect],
        Resolved)
  /\ In RedisQuit
       (snd (fst (disconnectRedis_run (Rejected "Connection is closed.")
                    (fst (fst (disconnectRedis_run Fulfilled
                                 {| state := Ready |})))))).
Proof. repeat split. cbn. now left. Qed.

(** C9, amended.  A call returns at once, issuing nothing, exactly when
    the status of the client is ['end'].  With any other status it issues
    [quit]; when [quit] succeeds it prints the disconnect, when [quit]
    fails it prints the error and forces the connection down with
    [disconnect()]; either way the call resolves and no error reaches the
    caller.  The call leaves the client as it found it, so a second call
    behaves as the first did: it is a no-op only once the client reports
    ['end']. *)
Theorem disconnectRedis_noop_once_ended
        (r : client) (o o' : outcome) (e : js_error) :
  disconnectRedis r
  = (if is_end (state r) then (r, [], Resolved)
     else (r, [RedisQuit], AwaitingQuit))
  /\ disconnectRedis_run o r
     = (if is_end (state r) then (r, [], Resolved)
        else (r,
              RedisQuit
              :: match o with
                 | Fulfilled => [ConsoleLog "[Redis] Disconnected"]
                 | Rejected err =>
                     [ConsoleError "[Redis] Error during disconnect:"
                                   (Some err);
                      RedisDisconnect]
                 end,
              Resolved))
  /\ disconnectRedis_run o' (fst (fst (disconnectRedis_run o r)))
     = disconnectRedis_run o' r
  /\ snd (disconnectRedis_run o r) = Resolved
  /\ snd (disconnectRedis_run o r) <> Failed e.
Proof.
  unfold disconnectRedis_run, disconnectRedis.
  destruct r as [st]. cbn [state].
  destruct (is_end st) eqn:E, o; cbn; rewrite ?E; cbn;
    repeat split; discriminate.
Qed.

End Disconnect.

(* ------------------------------------------------------------------ *)
(** ** Queue handles *)

(** C7.  The notifications queue (critical) retries up to 5 attempts with
    exponential backoff from 1000 ms; the check-source queue (best effort)
    up to 3 attempts with exponential backoff from 5000 ms. *)
Theorem queue_default_job_options :
  Queues.name Queues.notificationQueue = "notifications"
  /\ Queues.attempts (Queues.defaultJobOptions Queues.notificationQueue) = 5%nat
  /\ Queues.backoff (Queues.defaultJobOptions Queues.notificationQueue)
     = {| Queues.type := Queues.exponential; Queues.delay := 1000 |}
  /\ Queues.name Queues.checkSourceQueue = "check-source"
  /\ Queues.attempts (Queues.defaultJobOptions Queues.checkSourceQueue) = 3%nat
  /\ Queues.backoff (Queues.defaultJobOptions Queues.checkSourceQueue)
     = {| Queues.type := Queues.exponential; Queues.delay := 5000 |}.
Proof. repeat split. Qed.

(* ------------------------------------------------------------------ *)
(** ** Worker engine: concurrency ceiling and rate limit *)

Section FilterLength.

Context {A : Type}.

Lemma filter_length_le (p q : A -> bool) (l : list A) :
  (forall x, In x l -> p x = true -> q x = true) ->
  (length (filter p l) <= length (filter q l))%nat.
Proof.
  induction l as [|x l IH]; intros Hpq; cbn; [lia|].
  assert (IH' : (length (filter p l) <= length (filter q l))%nat).
  { apply IH. intros y Hy. apply Hpq. now right. }
  destruct (p x) eqn:Ep.
  - rewrite (Hpq x (or_introl eq_refl) Ep). cbn. lia.
  - destruct (q x); cbn; lia.
Qed.

End FilterLength.

Section Limits.

Import Engine.

Variable o : worker_options.

(** The concurrency ceiling holds whatever the limiter is. *)
Lemma step_running (e : engine) (i : input) :
  (running e <= concurrency o)%nat ->
  (running (step o e i) <= concurrency o)%nat.
Proof.
  intros H. destruct i; cbn [step running]; try assumption; [|lia].
  unfold slot_free. destruct (running e <? concurrency o)%nat eqn:E;
    [|assumption].
  apply Nat.ltb_lt in E.
  destruct (bucket_open o e); [|assumption].
  destruct (waiting e); cbn [running]; [assumption | lia].
Qed.

Lemma run_running (l : list input) (e : engine) :
  (running e <= concurrency o)%nat ->
  (running (run o e l) <= concurrency o)%nat.
Proof.
  revert e. induction l as [|i l IH]; intros e H; cbn; [assumption|].
  apply IH, step_running, H.
Qed.

Variable rl : rate_limit.
Hypothesis limited : limiter o = Some rl.

Lemma step_within_rate (e : engine) (i : input) :
  within_rate rl e -> within_rate rl (step o e i).
Proof.
  intros H. destruct i; cbn [step]; try assumption.
  destruct (slot_free o e); [|assumption].
  unfold bucket_open. rewrite limited.
  destruct (_ <? max rl)%nat eqn:E; [|assumption].
  apply Nat.ltb_lt in E.
  destruct (waiting e); [assumption|].
  intros t. unfold starts_in. cbn [starts filter].
  destruct ((t <=? clock e) && (clock e <? t + duration rl)) eqn:W.
  - apply andb_prop in W. destruct W as [W1 W2].
    apply Z.leb_le in W1. apply Z.ltb_lt in W2.
    cbn [length]. apply Nat.le_trans with
      (S (started_since (clock e - duration rl) (starts e))); [|lia].
    apply le_n_S. apply filter_length_le.
    intros s _ Hs. apply andb_prop in Hs. destruct Hs as [Hs _].
    apply Z.leb_le in Hs. apply Z.ltb_lt. lia.
  - apply H.
Qed.

Lemma run_within_rate (l : list input) (e : engine) :
  within_rate rl e -> within_rate rl (run o e l).
Proof.
  revert e. induction l as [|i l IH]; intros e H; cbn; [assumption|].
  apply IH, step_within_rate, H.
Qed.

End Limits.

(** C4.  The check-source worker is created with concurrency 5 and a
    limiter of 10 starts per 1000 ms.  Whatever is enqueued and however
    time, claims and handler completions interleave, at most 5 handlers
    run and every 1000 ms window [t, t+1000) holds at most 10 job starts. *)
Theorem checkSourceWorker_limits (n : nat) (l : list Engine.input) (t : Z) :
  Workers.options Workers.checkSourceWorker
  = {| Engine.concurrency := 5;
       Engine.limiter := Some {| Engine.max := 10; Engine.duration := 1000 |} |}
  /\ (Engine.running
        (Engine.run (Workers.options Workers.checkSourceWorker)
                    (Engine.fresh n) l) <= 5)%nat
  /\ (Engine.starts_in t 1000
        (Engine.starts
           (Engine.run (Workers.options Workers.checkSourceWorker)
                       (Engine.fresh n) l)) <= 10)%nat.
Proof.
  split; [reflexivity|]. split.
  - apply (run_running (Workers.options Workers.checkSourceWorker)).
    cbn. lia.
  - apply (run_within_rate (Workers.options Workers.checkSourceWorker)
             {| Engine.max := 10; Engine.duration := 1000 |} eq_refl).
    intros t'. cbn. lia.
Qed.

(** The scenario of the design document: 100 jobs instantly available,
    the engine claiming as fast as it can and handlers returning at once.
    Five run together; ten start in the first millisecond and no more until
    the window has passed. *)
Example checkSourceWorker_hundred_jobs :
  let o := Workers.options Workers.checkSourceWorker in
  Engine.running (Engine.run o (Engine.fresh 100) (repeat Engine.Claim 100))
  = 5%nat
  /\ Engine.starts
       (Engine.run o (Engine.fresh 100)
          (concat (repeat [Engine.Claim; Engine.Settle] 100)))
     = repeat 0 10
  /\ Engine.starts
       (Engine.run o (Engine.fresh 100)
          (concat (repeat [Engine.Claim; Engine.Settle] 100)
           ++ [Engine.Elapse 999; Engine.Claim; Engine.Elapse 1;
               Engine.Claim; Engine.Settle; Engine.Claim]))
     = [1000; 1000] ++ repeat 0 10.
Proof. repeat split; vm_compute; reflexivity. Qed.

Lemma starts_in_repeat (t w c : Z) (k : nat) :
  t <= c < t + w -> Engine.starts_in t w (repeat c k) = k.
Proof.
  intros H. unfold Engine.starts_in. induction k as [|k IH]; [reflexivity|].
  cbn [repeat filter].
  replace ((t <=? c) && (c <? t + w)) with true.
  - cbn [length]. now rewrite IH.
  - symmetry. apply andb_true_intro. split;
      [apply Z.leb_le | apply Z.ltb_lt]; lia.
Qed.

Section Unlimited.

Import Engine.

Variable o : worker_options.
Hypothesis unlimited : limiter o = None.
Hypothesis has_slot : (0 < concurrency o)%nat.

Lemma run_app (e : engine) (l1 l2 : list input) :
  run o e (l1 ++ l2) = run o (run o e l1) l2.
Proof. unfold run. apply fold_left_app. Qed.

Lemma run_one_burst (c : Z) (s : list Z) :
  run o {| clock := c; waiting := 0; running := 0; starts := s |}
      [Enqueue 1; Claim; Settle]
  = {| clock := c; waiting := 0; running := 0; starts := c :: s |}.
Proof.
  cbn [run fold_left step]. unfold slot_free, bucket_open.
  rewrite unlimited. cbn [running waiting clock starts Nat.add].
  destruct (0 <? concurrency o)%nat eqn:E;
    [reflexivity | apply Nat.ltb_ge in E; lia].
Qed.

Lemma run_burst (k : nat) (c : Z) (s : list Z) :
  run o {| clock := c; waiting := 0; running := 0; starts := s |} (burst k)
  = {| clock := c; waiting := 0; running := 0;
       starts := repeat c k ++ s |}.
Proof.
  revert s. induction k as [|k IH]; intros s; [reflexivity|].
  unfold burst. cbn [repeat concat]. fold (burst k).
  rewrite run_app, run_one_burst, IH. f_equal.
  change (c :: s) with ([c] ++ s). rewrite app_assoc.
  f_equal. symmetry. apply (repeat_cons k c).
Qed.

End Unlimited.

(** C10.  The notification worker is created with concurrency 10 and no
    limiter.  At most 10 handlers run at any time, and that is the only
    bound: for every window length [w > 0] and every number [r] there is a
    run with more than [r] job starts inside one window of length [w]. *)
Theorem notificationWorker_unlimited (w : Z) (r : nat) :
  0 < w ->
  Workers.options Workers.notificationWorker
  = {| Engine.concurrency := 10; Engine.limiter := None |}
  /\ Engine.limiter (Workers.options Workers.checkSourceWorker) <> None
  /\ (forall n l,
        (Engine.running
           (Engine.run (Workers.options Workers.notificationWorker)
                       (Engine.fresh n) l) <= 10)%nat)
  /\ exists l t,
       (r < Engine.starts_in t w
              (Engine.starts
                 (Engine.run (Workers.options Workers.notificationWorker)
                             (Engine.fresh 0) l)))%nat.
Proof.
  intros Hw. split; [reflexivity|]. split; [discriminate|]. split.
  - intros n l.
    apply (run_running (Workers.options Workers.notificationWorker)).
    cbn. lia.
  - exists (Engine.burst (S r)), 0.
    unfold Engine.fresh.
    rewrite (run_burst (Workers.options Workers.notificationWorker)
               eq_refl ltac:(cbn; lia)).
    cbn [Engine.starts]. rewrite app_nil_r.
    rewrite starts_in_repeat by lia. lia.
Qed.

Lemma notificationWorker_unlimited_witness :
  exists l t,
    (10 < Engine.starts_in t 1000
            (Engine.starts
               (Engine.run (Workers.options Workers.notificationWorker)
                           (Engine.fresh 0) l)))%nat.
Proof.
  apply (notificationWorker_unlimited 1000 10). lia.
Defined.

(* ------------------------------------------------------------------ *)
(** ** Retry with exponential backoff *)

Section Retry.

Import Engine.

Variable handler : nat -> outcome.
Variable m : nat.
Hypothesis fails_before : forall i, (1 <= i < m)%nat -> handler i <> Fulfilled.
Hypothesis succeeds : handler m = Fulfilled.

Variable b : Z.
Variable k : nat.
Hypothesis within_attempts : (m <= k)%nat.

(** From a job that has failed [a] times, the handler is invoked until
    invocation [m] succeeds; each failure in between re-queues the job. *)
Lemma execute_until_success (d : nat) :
  forall (a fuel : nat) (st : job_state) (ds : list Z),
    m = (S a + d)%nat -> (d <= fuel)%nat ->
    execute fuel handler
      {| attempts_made := a; max_attempts := k;
         backoff_policy :=
           {| Queues.type := Queues.exponential; Queues.delay := b |};
         state := st |}
      {| invocations := a; delays := ds |}
    = ({| attempts_made := (a + d)%nat; max_attempts := k;
          backoff_policy :=
            {| Queues.type := Queues.exponential; Queues.delay := b |};
          state := completed |},
       {| invocations := m;
          delays := ds ++ map (fun i => b * 2 ^ (Z.of_nat i - 1))
                              (seq (S a) d) |}).
Proof.
  induction d as [|d IH]; intros a fuel st ds Hm Hfuel.
  - rewrite Nat.add_0_r in Hm. subst m.
    destruct fuel; cbn [execute invocations]; rewrite succeeds;
      cbn; rewrite Nat.add_0_r, app_nil_r; reflexivity.
  - destruct fuel as [|fuel]; [lia|].
    cbn [execute invocations].
    destruct (handler (S a)) as [|err] eqn:E.
    { exfalso. apply (fails_before (S a)); [lia | exact E]. }
    unfold report_failure. cbn [attempts_made max_attempts backoff_policy].
    destruct (S a <? k)%nat eqn:L; [|apply Nat.ltb_ge in L; lia].
    cbn [delays]. rewrite (IH (S a) fuel) by lia.
    f_equal; [f_equal; lia|].
    f_equal. rewrite <- app_assoc. reflexivity.
Qed.

End Retry.

Section Exhaustion.

Import Engine.

Variable handler : nat -> outcome.
Hypothesis always_fails : forall i, handler i <> Fulfilled.

(** A handler that always fails is invoked exactly [max_attempts] times
    and the job ends failed. *)
Lemma execute_until_failed (d : nat) :
  forall (a fuel : nat) (j : job) (h : history),
    attempts_made j = a -> invocations h = a ->
    max_attempts j = (S a + d)%nat -> (d <= fuel)%nat ->
    state (fst (execute fuel handler j h)) = failed
    /\ attempts_made (fst (execute fuel handler j h)) = max_attempts j
    /\ invocations (snd (execute fuel handler j h)) = max_attempts j.
Proof.
  induction d as [|d IH]; intros a fuel j h Ha Hh Hk Hfuel.
  - assert (E : forall f, execute f handler j h
                          = (fst (report_failure j),
                             {| invocations := S a; delays := delays h |})).
    { intros f. destruct f; cbn [execute]; rewrite Hh;
        (destruct (handler (S a)) eqn:E; [now apply always_fails in E|]);
        unfold report_failure; rewrite Ha, Hk, Nat.add_0_r, Nat.ltb_irrefl;
        reflexivity. }
    rewrite E. unfold report_failure.
    rewrite Ha, Hk, Nat.add_0_r, Nat.ltb_irrefl. cbn. auto.
  - destruct fuel as [|fuel]; [lia|].
    cbn [execute]. rewrite Hh.
    destruct (handler (S a)) eqn:E; [now apply always_fails in E|].
    unfold report_failure. rewrite Ha, Hk.
    destruct (S a <? S a + S d)%nat eqn:L; [|apply Nat.ltb_ge in L; lia].
    specialize (IH (S a) fuel
                   {| attempts_made := S a; max_attempts := (S a + S d)%nat;
                      backoff_policy := backoff_policy j;
                      state := waiting_retry |}
                   {| invocations := S a;
                      delays := delays h
                                  ++ [backoff_delay (backoff_policy j) (S a)] |}
                   eq_refl eq_refl).
    cbn [max_attempts] in IH. apply IH; lia.
Qed.

End Exhaustion.

Lemma total_delay_snoc (n : nat) (ds : list Z) (x : Z) :
  Engine.total_delay {| Engine.invocations := n; Engine.delays := ds ++ [x] |}
  = Engine.total_delay {| Engine.invocations := n; Engine.delays := ds |} + x.
Proof.
  unfold Engine.total_delay. cbn [Engine.delays].
  induction ds as [|y ds IH]; cbn; [lia|]. rewrite IH. lia.
Qed.

Lemma total_delay_geometric (b : Z) (n d : nat) :
  Engine.total_delay
    {| Engine.invocations := n;
       Engine.delays := map (fun i => b * 2 ^ (Z.of_nat i - 1)) (seq 1 d) |}
  = b * (2 ^ Z.of_nat d - 1).
Proof.
  induction d as [|d IH].
  - cbn. lia.
  - rewrite seq_S, map_app. cbn [map]. rewrite total_delay_snoc, IH.
    replace (Z.of_nat (1 + d) - 1) with (Z.of_nat d) by lia.
    rewrite Nat2Z.inj_succ, Z.pow_succ_r by lia. lia.
Qed.

(** C5.  A job enqueued on a queue whose default backoff is exponential
    with base [b], whose handler fails on invocations 1 .. m-1 and
    succeeds on invocation [m] (within the attempts of the queue), is
    invoked [m] times and ends completed; the delay after failed attempt
    [i] is [b * 2^(i-1)], in total [b * (2^(m-1) - 1)]. *)
Theorem exponential_backoff_schedule
        (q : Queues.queue) (handler : nat -> outcome) (m : nat) :
  Queues.type (Queues.backoff (Queues.defaultJobOptions q))
  = Queues.exponential ->
  (1 <= m <= Queues.attempts (Queues.defaultJobOptions q))%nat ->
  (forall i, (1 <= i < m)%nat -> handler i <> Fulfilled) ->
  handler m = Fulfilled ->
  let b := Queues.delay (Queues.backoff (Queues.defaultJobOptions q)) in
  let r := Engine.process handler (Engine.enqueue q) in
  Engine.state (fst r) = Engine.completed
  /\ Engine.invocations (snd r) = m
  /\ Engine.delays (snd r)
     = map (fun i => b * 2 ^ (Z.of_nat i - 1)) (seq 1 (m - 1))
  /\ Engine.total_delay (snd r) = b * (2 ^ (Z.of_nat m - 1) - 1).
Proof.
  intros Hexp Hm Hfail Hok b r.
  assert (Hr : r = ({| Engine.attempts_made := (m - 1)%nat;
                       Engine.max_attempts :=
                         Queues.attempts (Queues.defaultJobOptions q);
                       Engine.backoff_policy :=
                         {| Queues.type := Queues.exponential;
                            Queues.delay := b |};
                       Engine.state := Engine.completed |},
                    {| Engine.invocations := m;
                       Engine.delays :=
                         map (fun i => b * 2 ^ (Z.of_nat i - 1))
                             (seq 1 (m - 1)) |})).
  { subst r. unfold Engine.process, Engine.enqueue.
    cbn [Engine.max_attempts].
    destruct q as [nm [att [ty dl] rc rf]]. cbn in Hexp, Hm, b |- *.
    subst ty b.
    rewrite (execute_until_success handler m Hfail Hok dl att (proj2 Hm)
               (m - 1) 0 att) by lia.
    reflexivity. }
  rewrite Hr. cbn [fst snd Engine.state Engine.invocations Engine.delays].
  repeat split.
  rewrite total_delay_geometric. f_equal. f_equal. f_equal. lia.
Qed.

(** The scenario of the design document, on the notifications queue:
    attempts 1 to 4 fail, attempt 5 succeeds; the job has waited
    1000 + 2000 + 4000 + 8000 = 15000 ms and is completed. *)
Lemma exponential_backoff_schedule_witness :
  Engine.state
    (fst (Engine.process
            (fun i => if (i <? 5)%nat then Rejected "timeout" else Fulfilled)
            (Engine.enqueue Queues.notificationQueue)))
  = Engine.completed
  /\ Engine.invocations
       (snd (Engine.process
               (fun i => if (i <? 5)%nat then Rejected "timeout" else Fulfilled)
               (Engine.enqueue Queues.notificationQueue)))
     = 5%nat
  /\ Engine.delays
       (snd (Engine.process
               (fun i => if (i <? 5)%nat then Rejected "timeout" else Fulfilled)
               (Engine.enqueue Queues.notificationQueue)))
     = [1000; 2000; 4000; 8000]
  /\ Engine.total_delay
       (snd (Engine.process
               (fun i => if (i <? 5)%nat then Rejected "timeout" else Fulfilled)
               (Engine.enqueue Queues.notificationQueue)))
     = 15000.
Proof.
  apply (exponential_backoff_schedule Queues.notificationQueue
           (fun i => if (i <? 5)%nat then Rejected "timeout" else Fulfilled)
           5).
  - reflexivity.
  - cbn. lia.
  - intros i Hi. destruct (i <? 5)%nat eqn:E; [discriminate|].
    apply Nat.ltb_ge in E. lia.
  - reflexivity.
Defined.

(* ------------------------------------------------------------------ *)
(** ** The worker process *)

Section Process.

Import Workers.

Lemma step_exited (s : proc) (e : event) (c : Z) :
  exited s = Some c -> step s e = s.
Proof. intros H. unfold step. now rewrite H. Qed.

Lemma run_exited (l : list event) (s : proc) (c : Z) :
  exited s = Some c -> run s l = s.
Proof.
  induction l as [|e l IH]; intros H; [reflexivity|].
  cbn. rewrite (step_exited s e c H). apply IH, H.
Qed.

Lemma run_snoc (s : proc) (l : list event) (e : event) :
  run s (l ++ [e]) = step (run s l) e.
Proof. unfold run. now rewrite fold_left_app. Qed.

(** Case analysis on one turn of the event loop: first the event and
    the task it resumes, then every test the handler makes. *)
Ltac unfold_ops :=
  unfold shutdown, clearInterval, close, shutdown_disconnect,
    shutdown_disconnected, shutdown_finish, startScheduler_resume,
    on_interval, on_interval_resume, suspend, resume, drained,
    shutdown_rejected, claims_jobs,
    Redis.disconnectRedis, Redis.disconnectRedis_resume.

Ltac crunch :=
  repeat (first
            [ progress cbn
            | match goal with
              | |- context [Redis.is_end ?x] =>
                  destruct (Redis.is_end x) eqn:?
              end
            | match goal with
              | |- context [match ?x with _ => _ end] => destruct x eqn:?
              end ]).

Ltac step_cases s e H :=
  unfold step; rewrite H;
  destruct e as [d| |sg|w|w id o|i o|st];
  [ | | destruct sg | destruct w | destruct w, o
    | destruct (nth_error (tasks s) i) as [[| |sg|sg]|] eqn:?; destruct o
    | ].

Lemma step_shutdown_starts (s : proc) (e : event) :
  exited s = None ->
  shutdown_starts (step s e)
  = (shutdown_starts s + if is_signal e then 1 else 0)%nat.
Proof.
  intros H. step_cases s e H; unfold shutdown_starts; unfold_ops;
    crunch; lia.
Qed.

Lemma run_shutdown_starts (l : list event) :
  exited (run boot l) = None ->
  shutdown_starts (run boot l) = signals l.
Proof.
  induction l as [|e l IH] using rev_ind; intros H; [reflexivity|].
  rewrite run_snoc in *.
  destruct (exited (run boot l)) as [c|] eqn:E.
  { rewrite (step_exited _ e c E) in H. congruence. }
  rewrite step_shutdown_starts, IH by (assumption || reflexivity).
  unfold signals. rewrite filter_app, length_app. cbn.
  destruct (is_signal e); reflexivity.
Qed.

Lemma existsb_remove_nth {A : Type} (p : A -> bool) (i : nat) (l : list A) :
  existsb p (remove_nth i l) = true -> existsb p l = true.
Proof.
  revert i. induction l as [|x l IH]; intros i; [destruct i; exact id|].
  destruct i as [|i]; cbn; intros H.
  - rewrite H. apply orb_true_r.
  - apply orb_prop in H. destruct H as [H|H];
      [rewrite H; reflexivity | rewrite (IH i H); apply orb_true_r].
Qed.

Lemma existsb_nth_error {A : Type} (p : A -> bool) (i : nat) (l : list A)
      (x : A) :
  nth_error l i = Some x -> p x = true -> existsb p l = true.
Proof.
  intros H Hp. apply existsb_exists. exists x. split; [|exact Hp].
  eapply nth_error_In, H.
Qed.

(** *** The trace of every run is in order *)

Lemma consistent_boot : consistent boot.
Proof. unfold consistent. cbn. repeat split. discriminate. Qed.

Ltac use_disconnecting :=
  try match goal with
      | Hn : nth_error ?tk ?i = Some (AwaitDisconnect _),
        Hd : existsb is_disconnecting ?tk = true -> _ |- _ =>
          pose proof
            (Hd (existsb_nth_error is_disconnecting i tk _ Hn eq_refl))
      end;
  try match goal with
      | Hd : existsb is_disconnecting ?tk = true -> _ |- _ -> _ =>
          let Hx := fresh "Hx" in
          intros Hx;
          try (rewrite existsb_app in Hx; cbn in Hx;
               rewrite orb_false_r in Hx);
          try apply existsb_remove_nth in Hx;
          specialize (Hd Hx)
      end.

Ltac decide_counters :=
  repeat match goal with
         | |- context [(?n =? 0)%nat] => is_var n; destruct n
         | Hn : context [(?n =? 0)%nat] |- _ => is_var n; destruct n
         end.

Lemma step_consistent (s : proc) (e : event) :
  consistent s -> consistent (step s e).
Proof.
  intros C. destruct (exited s) as [c|] eqn:H.
  { now rewrite (step_exited s e c H). }
  destruct C as (Hord & Hr1 & Hr2 & Hc1 & Hc2 & Htimer & Hexit & Hdisc & _).
  rewrite H in Hexit.
  unfold step; rewrite H.
  destruct s as [nw [[pd du [|]]|] [[|] n1] [[|] n2] [rs] tk ex tr].
  all: unfold drained in Hdisc; cbn in *; subst ex.
  all: destruct e as [d| |sg|w|w id o|i o|st];
    [ | | destruct sg | destruct w | destruct w, o
      | destruct (nth_error tk i) as [[| |sg|sg]|] eqn:?; destruct o
      | ].
  all: unfold consistent; unfold_ops.
  all: crunch.
  all: unfold permitted, workers_drained; cbn.
  all: rewrite ?Hord, ?Hr1, ?Hr2, ?Hc1, ?Hc2, ?Htimer, ?Hexit; cbn.
  all: repeat split; auto.
  all: use_disconnecting.
  all: try match goal with
           | Hrs : Redis.is_end ?rs = true |- _ => destruct rs
           end.
  all: cbn in *; try discriminate; try reflexivity; try assumption.
  all: decide_counters.
  all: cbn in *; try discriminate; try reflexivity; try assumption.
Qed.

Lemma run_consistent (l : list event) (s : proc) :
  consistent s -> consistent (run s l).
Proof.
  revert s. induction l as [|e l IH]; intros s C; [exact C|].
  cbn. apply IH, step_consistent, C.
Qed.

(** *** The scheduler loop survives failed cycles *)

Lemma forallb_nth_error {A : Type} (p : A -> bool) (i : nat) (l : list A)
      (x : A) :
  forallb p l = true -> nth_error l i = Some x -> p x = true.
Proof.
  intros H Hn. rewrite forallb_forall in H. apply H.
  eapply nth_error_In, Hn.
Qed.

Lemma forallb_remove_nth {A : Type} (p : A -> bool) (i : nat) (l : list A) :
  forallb p l = true -> forallb p (remove_nth i l) = true.
Proof.
  revert i. induction l as [|x l IH]; intros i H; [destruct i; exact H|].
  cbn in H. apply andb_prop in H. destruct H as [Hx Hl].
  destruct i as [|i]; cbn; [exact Hl|].
  rewrite Hx. cbn. apply IH, Hl.
Qed.

Lemma existsb_remove_other {A : Type} (p : A -> bool) (i : nat)
      (l : list A) (x : A) :
  nth_error l i = Some x -> p x = false ->
  existsb p (remove_nth i l) = existsb p l.
Proof.
  revert i. induction l as [|y l IH]; intros i Hn Hp;
    [destruct i; reflexivity|].
  destruct i as [|i]; cbn in *.
  - injection Hn as ->. now rewrite Hp.
  - now rewrite (IH i Hn Hp).
Qed.

Lemma scheduler_alive_boot : scheduler_alive boot.
Proof. repeat split. Qed.

Lemma step_scheduler_alive (s : proc) (e : event) :
  scheduler_alive s -> is_signal e = false -> scheduler_alive (step s e).
Proof.
  intros (H & Htk & Htm) He. unfold step; rewrite H.
  destruct s as [nw [[pd du cl]|] [c1 n1] [c2 n2] [rs] tk ex tr].
  all: cbn in *; subst ex; try destruct Htm as (-> & -> & Hd).
  all: destruct e as [d| |sg|w|w id o|i o|st]; try discriminate He.
  all: try destruct w; try destruct o.
  all: try (destruct (nth_error tk i) as [k|] eqn:Hn;
            [ pose proof (forallb_nth_error _ _ _ _ Htk Hn) as Hk;
              pose proof (forallb_remove_nth _ i _ Htk) as Hrm;
              destruct k; try discriminate Hk | ]).
  all: unfold scheduler_alive; unfold_ops; crunch.
  all: repeat split; auto; try lia.
  all: try (rewrite forallb_app, Htk; reflexivity).
  all: try (rewrite (existsb_remove_other _ _ _ _ Hn eq_refl); assumption).
Qed.

Lemma run_scheduler_alive (l : list event) (s : proc) :
  scheduler_alive s ->
  forallb (fun e => negb (is_signal e)) l = true ->
  scheduler_alive (run s l).
Proof.
  revert s. induction l as [|e l IH]; intros s A Hl; [exact A|].
  cbn in Hl. apply andb_prop in Hl. destruct Hl as [He Hl].
  cbn. apply IH; [|exact Hl].
  apply step_scheduler_alive; [exact A|].
  now destruct (is_signal e).
Qed.

(** *** Claims about the process *)

Lemma trace_shutdown (sg : signal) (s : proc) :
  trace (shutdown sg s)
  = [WorkerClose Notification; WorkerClose CheckSource]
      ++ match schedulerInterval s with
         | Some _ => [ClearInterval]
         | None => []
         end
      ++ ConsoleLog (shutdown_banner sg) :: trace s.
Proof. destruct s as [nw [t|] cs nt rd tk ex tr]; reflexivity. Qed.

Lemma timer_shutdown (sg : signal) (s : proc) :
  schedulerInterval (shutdown sg s)
  = match schedulerInterval s with
    | Some t => Some {| period := period t; due := due t; cleared := true |}
    | None => None
    end.
Proof. destruct s as [nw [t|] cs nt rd tk ex tr]; reflexivity. Qed.

Lemma tasks_shutdown (sg : signal) (s : proc) :
  tasks (shutdown sg s) = tasks s ++ [AwaitWorkersClosed sg].
Proof. destruct s as [nw [t|] cs nt rd tk ex tr]; reflexivity. Qed.

(** C1 as stated fails: the initial run has settled, a notification job
    is being handled, SIGTERM arrives and then SIGINT while the worker
    is still draining.  The process has not exited, and two shutdown
    sequences have been started and are both suspended on the closing of
    the workers. *)
Lemma second_signal_starts_second_shutdown :
  let s := run boot [Settle 0 Fulfilled; JobClaimed Notification;
                     Signal SIGTERM; Signal SIGINT] in
  exited s = None
  /\ in_flight (notification s) = 1%nat
  /\ shutdown_starts s = 2%nat
  /\ tasks s = [AwaitWorkersClosed SIGTERM; AwaitWorkersClosed SIGINT]
  /\ draining s = 2%nat
  /\ ~ (shutdown_starts s <= 1)%nat.
Proof. cbn. repeat split. lia. Qed.

(** C1, amended.  While the process has not exited, the number of
    shutdown sequences started equals the number of termination signals
    received: [shutdown] is not guarded, and one more signal starts one
    more sequence, suspended next to those already draining. *)
Theorem every_signal_starts_a_shutdown (l : list event) (sg : signal) :
  exited (run boot l) = None ->
  shutdown_starts (run boot l) = signals l
  /\ shutdown_starts (run boot (l ++ [Signal sg])) = S (signals l)
  /\ tasks (run boot (l ++ [Signal sg]))
     = tasks (run boot l) ++ [AwaitWorkersClosed sg].
Proof.
  intros H. split; [|split].
  - apply run_shutdown_starts, H.
  - rewrite run_snoc, step_shutdown_starts by exact H.
    rewrite run_shutdown_starts by exact H. cbn. lia.
  - rewrite run_snoc. unfold step. rewrite H. apply tasks_shutdown.
Qed.

Lemma every_signal_starts_a_shutdown_witness :
  shutdown_starts (run boot ([JobClaimed Notification; Signal SIGTERM]
                               ++ [Signal SIGINT])) = 2%nat.
Proof.
  apply (every_signal_starts_a_shutdown
           [JobClaimed Notification; Signal SIGTERM] SIGINT).
  reflexivity.
Defined.

(** In every run of the process the trace is in order: a worker is closed
    only when no interval timer is armed at that moment; the store
    connection is quit or dropped only after both workers have been closed
    and every handler that had started has settled; [process.exit] is
    called only after that, with status 0, and nothing follows it. *)
Lemma trace_in_order (l : list event) :
  in_order (trace (run boot l)) = true
  /\ match exited (run boot l) with
     | Some c => c = 0 /\ drained (run boot l) = true
     | None => True
     end.
Proof.
  destruct (run_consistent l boot consistent_boot)
    as (Hord & _ & _ & _ & _ & _ & _ & _ & Hex).
  split; [exact Hord | exact Hex].
Qed.

(** C3 (the code departs from the claim).  SIGTERM arrives while the
    initial run of the production routine is still awaited.  [shutdown]
    finds [schedulerInterval] null and clears nothing; it closes the
    workers.  The initial run then settles and [startScheduler] sets the
    interval; a cycle starts while the workers close, another while
    [redis.quit()] is in flight, and the process exits with status 0, the
    interval never cleared. *)
Theorem shutdown_leaves_late_timer_running :
  log (run boot [Signal SIGTERM; Settle 0 Fulfilled;
                 Elapse 300000; TimerFire; Settle 0 Fulfilled;
                 Elapse 300000; TimerFire; Settle 1 Fulfilled])
  = [ConsoleLog "[Workers] Starting...";
     RunMasterScheduler;
     ConsoleLog "[Workers] Active and listening for jobs";
     ConsoleLog "[Workers] Received SIGTERM, shutting down gracefully...";
     WorkerClose CheckSource;
     WorkerClose Notification;
     SetInterval 300000;
     RunMasterScheduler;
     RedisQuit;
     RunMasterScheduler;
     ConsoleLog "[Redis] Disconnected";
     ConsoleLog "[Workers] Shutdown complete";
     ProcessExit 0]
  /\ schedulerInterval
       (run boot [Signal SIGTERM; Settle 0 Fulfilled;
                  Elapse 300000; TimerFire; Settle 0 Fulfilled;
                  Elapse 300000; TimerFire; Settle 1 Fulfilled])
     = Some {| period := 300000; due := 900000; cleared := false |}
  /\ exited
       (run boot [Signal SIGTERM; Settle 0 Fulfilled;
                  Elapse 300000; TimerFire; Settle 0 Fulfilled;
                  Elapse 300000; TimerFire; Settle 1 Fulfilled])
     = Some 0.
Proof. repeat split. Qed.

(** One whole session: the initial run fails, a check-source job is being
    handled when SIGTERM arrives, the job finishes, the workers close,
    QUIT is acknowledged. *)
Example graceful_session :
  log (run boot [Settle 0 (Rejected "ETIMEDOUT");
                 JobClaimed CheckSource;
                 Signal SIGTERM;
                 Settle 0 Fulfilled;
                 JobClaimed CheckSource;
                 JobSettled CheckSource "42" Fulfilled;
                 Settle 0 Fulfilled;
                 Settle 0 Fulfilled])
  = [ConsoleLog "[Workers] Starting...";
     RunMasterScheduler;
     ConsoleLog "[Workers] Active and listening for jobs";
     ConsoleError "[Scheduler] Initial run failed:" (Some "ETIMEDOUT");
     SetInterval 300000;
     HandlerStart CheckSource;
     ConsoleLog "[Workers] Received SIGTERM, shutting down gracefully...";
     ClearInterval;
     WorkerClose CheckSource;
     WorkerClose Notification;
     HandlerEnd CheckSource;
     ConsoleLog "[CheckSource] Job 42 completed";
     RedisQuit;
     ConsoleLog "[Redis] Disconnected";
     ConsoleLog "[Workers] Shutdown complete";
     ProcessExit 0].
Proof. reflexivity. Qed.

(** C6.  The module starts one run of the production routine at once and
    awaits it; no timer exists until it settles.  In every run without a
    termination signal the loop stays alive: the process has not exited
    and, once the initial run has settled either way, the timer is armed
    with a period of 300000 ms.  A cycle that throws is caught: the
    error is printed and nothing else changes.  A timer that is due fires
    a cycle and is due again one period later. *)
Theorem scheduler_survives_failed_cycles (l : list event) :
  forallb (fun e => negb (is_signal e)) l = true ->
  let s := run boot l in
  (log boot = [ConsoleLog "[Workers] Starting..."; RunMasterScheduler;
               ConsoleLog "[Workers] Active and listening for jobs"]
   /\ tasks boot = [AwaitInitialRun]
   /\ schedulerInterval boot = None
   /\ SCHEDULER_INTERVAL = 300000)
  /\ scheduler_alive s
  /\ (forall i o,
        nth_error (tasks s) i = Some AwaitInitialRun ->
        step s (Settle i o)
        = emit (match o with
                | Fulfilled => []
                | Rejected e =>
                    [ConsoleError "[Scheduler] Initial run failed:" (Some e)]
                end ++ [SetInterval SCHEDULER_INTERVAL])
            (set_timer (Some {| period := SCHEDULER_INTERVAL;
                                due := now s + SCHEDULER_INTERVAL;
                                cleared := false |})
                       (resume i s)))
  /\ (forall i e,
        nth_error (tasks s) i = Some AwaitCycle ->
        step s (Settle i (Rejected e))
        = emit [ConsoleError "[Scheduler] Error in master scheduler:"
                             (Some e)]
            (resume i s))
  /\ (forall t,
        schedulerInterval s = Some t -> due t <= now s ->
        step s TimerFire
        = suspend AwaitCycle
            (emit [RunMasterScheduler]
               (set_timer (Some {| period := SCHEDULER_INTERVAL;
                                   due := now s + SCHEDULER_INTERVAL;
                                   cleared := false |}) s))).
Proof.
  intros Hl s.
  pose proof (run_scheduler_alive l boot scheduler_alive_boot Hl) as A.
  fold s in A. split; [repeat split|]. split; [exact A|].
  destruct A as (Hex & _ & Htm). split; [|split].
  - intros i o Hi. unfold step. rewrite Hex, Hi.
    destruct o; reflexivity.
  - intros i e Hi. unfold step. rewrite Hex, Hi. reflexivity.
  - intros t Ht Hdue. unfold step. rewrite Hex, Ht. rewrite Ht in Htm.
    destruct Htm as (Hp & Hc & _). rewrite Hp, Hc.
    apply Z.leb_le in Hdue. rewrite Hdue. reflexivity.
Qed.

Lemma scheduler_survives_failed_cycles_witness :
  scheduler_alive
    (run boot [Settle 0 (Rejected "ECONNRESET"); Elapse 300000; TimerFire;
               Settle 0 (Rejected "ECONNRESET"); Elapse 300000]).
Proof.
  apply (scheduler_survives_failed_cycles
           [Settle 0 (Rejected "ECONNRESET"); Elapse 300000; TimerFire;
            Settle 0 (Rejected "ECONNRESET"); Elapse 300000]).
  reflexivity.
Defined.

(** Two failed runs in a row, and the third still starts on time. *)
Example failed_cycles_session :
  let s := run boot [Settle 0 (Rejected "ECONNRESET"); Elapse 300000;
                     TimerFire; Settle 0 (Rejected "ECONNRESET");
                     Elapse 300000; TimerFire] in
  log s
  = [ConsoleLog "[Workers] Starting...";
     RunMasterScheduler;
     ConsoleLog "[Workers] Active and listening for jobs";
     ConsoleError "[Scheduler] Initial run failed:" (Some "ECONNRESET");
     SetInterval 300000;
     RunMasterScheduler;
     ConsoleError "[Scheduler] Error in master scheduler:"
                  (Some "ECONNRESET");
     RunMasterScheduler]
  /\ now s = 600000
  /\ schedulerInterval s
     = Some {| period := 300000; due := 900000; cleared := false |}
  /\ exited s = None.
Proof. repeat split. Qed.

(** C8.  When [redis.quit()] fails, [disconnectRedis] prints the error,
    forces the connection down with [disconnect()] and resolves; the
    shutdown sequence that was waiting for it prints its last line and
    exits with status 0. *)
Theorem disconnect_failure_is_forced
        (s : proc) (i : nat) (sg : signal) (e : js_error) :
  exited s = None ->
  nth_error (tasks s) i = Some (AwaitDisconnect sg) ->
  Redis.disconnectRedis_resume (Rejected e) (redis s)
  = (redis s,
     [ConsoleError "[Redis] Error during disconnect:" (Some e);
      RedisDisconnect],
     Redis.Resolved)
  /\ log (step s (Settle i (Rejected e)))
     = log s
         ++ [ConsoleError "[Redis] Error during disconnect:" (Some e);
             RedisDisconnect;
             ConsoleLog "[Workers] Shutdown complete";
             ProcessExit 0]
  /\ exited (step s (Settle i (Rejected e))) = Some 0
  /\ redis (step s (Settle i (Rejected e))) = redis s.
Proof.
  intros Hex Hi. split; [reflexivity|].
  unfold step. rewrite Hex, Hi. unfold log. cbn.
  repeat split. now rewrite <- !app_assoc.
Qed.

Lemma disconnect_failure_is_forced_witness :
  exited (step (run boot [Signal SIGTERM; Settle 1 Fulfilled])
               (Settle 1 (Rejected "ECONNRESET"))) = Some 0.
Proof.
  apply (disconnect_failure_is_forced
           (run boot [Signal SIGTERM; Settle 1 Fulfilled]) 1 SIGTERM
           "ECONNRESET"); reflexivity.
Defined.

End Process.

(* ------------------------------------------------------------------ *)
(** ** More on the store connection *)

(** X1.  Whenever [retryStrategy] returns a delay, the delay is 200 ms for
    each attempt made and at most 4000 ms: the strategy has given up
    before the 5000 ms cap could be the smaller operand. *)
Theorem retryStrategy_cap_never_reached (t d : Z) :
  snd (Redis.retryStrategy t) = Some d ->
  t <= 20 /\ d = 200 * t /\ d <= 4000 /\ d < 5000
  /\ fst (Redis.retryStrategy t) = [].
Proof.
  unfold Redis.retryStrategy. destruct (20 <? t) eqn:E; cbn [snd fst];
    [discriminate|].
  apply Z.ltb_ge in E. intros [= <-]. repeat split; lia.
Qed.

Lemma retryStrategy_cap_never_reached_witness :
  20 <= 20 /\ 4000 = 200 * 20 /\ 4000 <= 4000 /\ 4000 < 5000
  /\ fst (Redis.retryStrategy 20) = [].
Proof. apply (retryStrategy_cap_never_reached 20 4000). reflexivity. Defined.

(* ------------------------------------------------------------------ *)
(** ** More on the worker process *)

Section ProcessMore.

Import Workers Scheduler.

Ltac unfold_ops :=
  unfold shutdown, clearInterval, close, shutdown_disconnect,
    shutdown_disconnected, shutdown_finish, startScheduler_resume,
    on_interval, on_interval_resume, suspend, resume, drained,
    shutdown_rejected, claims_jobs,
    Redis.disconnectRedis, Redis.disconnectRedis_resume.

Ltac crunch :=
  repeat (first
            [ progress cbn
            | match goal with
              | |- context [Redis.is_end ?x] =>
                  destruct (Redis.is_end x) eqn:?
              end
            | match goal with
              | |- context [match ?x with _ => _ end] => destruct x eqn:?
              end ]).

Lemma filter_pos_nth {A : Type} (p : A -> bool) (i : nat) (l : list A)
      (x : A) :
  nth_error l i = Some x -> p x = true -> (0 < length (filter p l))%nat.
Proof.
  intros Hn E.
  assert (Hin : In x (filter p l)).
  { apply filter_In. split; [eapply nth_error_In, Hn | exact E]. }
  destruct (filter p l); [destruct Hin | cbn; lia].
Qed.

Lemma filter_remove_nth {A : Type} (p : A -> bool) (i : nat) (l : list A)
      (x : A) :
  nth_error l i = Some x ->
  length (filter p (remove_nth i l))
  = (length (filter p l) - if p x then 1 else 0)%nat.
Proof.
  revert i. induction l as [|y l IH]; intros i Hn; [destruct i; discriminate|].
  destruct i as [|i]; cbn [remove_nth nth_error filter] in *.
  - injection Hn as ->. destruct (p x); cbn; lia.
  - destruct (p y) eqn:Ey; cbn [length]; rewrite (IH i Hn); [|reflexivity].
    destruct (p x) eqn:Ex; [|lia].
    pose proof (filter_pos_nth p i l x Hn Ex). lia.
Qed.

Lemma filter_none_nth {A : Type} (p : A -> bool) (i : nat) (l : list A)
      (x : A) :
  length (filter p l) = 0%nat -> nth_error l i = Some x -> p x = false.
Proof.
  intros H Hn. destruct (p x) eqn:E; [|reflexivity].
  assert (Hin : In x (filter p l)).
  { apply filter_In. split; [eapply nth_error_In, Hn | exact E]. }
  destruct (filter p l); [destruct Hin | discriminate].
Qed.

Lemma filter_snoc_length {A : Type} (p : A -> bool) (l : list A) (x : A) :
  length (filter p (l ++ [x]))
  = (length (filter p l) + if p x then 1 else 0)%nat.
Proof. rewrite filter_app, length_app. cbn. now destruct (p x). Qed.

Lemma armed_once_boot : armed_once boot.
Proof. reflexivity. Qed.

Lemma step_armed_once (s : proc) (e : event) :
  armed_once s -> armed_once (step s e).
Proof.
  unfold armed_once, initial_pending. intros A.
  destruct (exited s) as [c|] eqn:H.
  { unfold step. now rewrite H. }
  unfold step. rewrite H.
  destruct s as [nw [[pd du cl]|] [c1 n1] [c2 n2] [rs] tk ex tr].
  all: cbn in *; subst ex.
  all: destruct e as [d| |sg|w|w id o|i o|st].
  all: try destruct w; try destruct o.
  all: try (destruct (nth_error tk i) as [k|] eqn:Hn;
            [ pose proof (filter_remove_nth is_initial_run i tk k Hn) as Hrm;
              try pose proof (filter_none_nth is_initial_run i tk k A Hn)
                as Hk;
              destruct k; try discriminate Hk | ]).
  all: unfold_ops; crunch.
  all: rewrite ?filter_snoc_length; cbn.
  all: rewrite ?Hrm, ?A; cbn; try lia.
Qed.

Lemma run_armed_once (l : list event) (s : proc) :
  armed_once s -> armed_once (run s l).
Proof.
  revert s. induction l as [|e l IH]; intros s A; [exact A|].
  cbn. apply IH, step_armed_once, A.
Qed.

Lemma step_stopped (s : proc) (e : event) :
  stopped s -> stopped (step s e) /\ cycles (step s e) = cycles s.
Proof.
  unfold stopped, initial_pending, cycles. intros (P & t & Ht & Hc).
  destruct (exited s) as [c|] eqn:H.
  { unfold step. rewrite H. eauto. }
  unfold step. rewrite H.
  destruct s as [nw si [c1 n1] [c2 n2] [rs] tk ex tr].
  cbn in *; subst ex si. destruct t as [pd du cl]. cbn in Hc. subst cl.
  destruct e as [d| |sg|w|w id o|i o|st].
  all: try destruct w; try destruct o.
  all: try (destruct (nth_error tk i) as [k|] eqn:Hn;
            [ pose proof (filter_remove_nth is_initial_run i tk k Hn) as Hrm;
              pose proof (filter_none_nth is_initial_run i tk k P Hn) as Hk;
              destruct k; try discriminate Hk | ]).
  all: unfold_ops; crunch.
  all: rewrite ?filter_snoc_length; cbn.
  all: rewrite ?Hrm, ?P; cbn.
  all: repeat split; eauto.
Qed.

Lemma proc_run_cons (s : proc) (e : event) (l : list event) :
  run s (e :: l) = run (step s e) l.
Proof. reflexivity. Qed.

Lemma proc_run_app (s : proc) (l1 l2 : list event) :
  run s (l1 ++ l2) = run (run s l1) l2.
Proof. unfold run. apply fold_left_app. Qed.

Lemma run_stopped (l : list event) (s : proc) :
  stopped s -> cycles (run s l) = cycles s.
Proof.
  revert s. induction l as [|e l IH]; intros s St; [reflexivity|].
  rewrite proc_run_cons. destruct (step_stopped s e St) as [St' E].
  rewrite (IH _ St'). exact E.
Qed.

Lemma shutdown_stopped (s : proc) (sg : signal) :
  initial_pending s = 0%nat -> schedulerInterval s <> None ->
  stopped (shutdown sg s) /\ cycles (shutdown sg s) = cycles s.
Proof.
  unfold stopped, initial_pending, cycles.
  destruct s as [nw [[pd du cl]|] [c1 n1] [c2 n2] [rs] tk ex tr];
    cbn; intros P N; [|congruence].
  rewrite filter_snoc_length, P. cbn. destruct sg; cbn; eauto.
Qed.

(** X2.  Once [shutdown] has been called with the interval set, the production
    routine is never invoked again, whatever happens next. *)
Theorem no_cycle_after_shutdown (l0 l : list event) (sg : signal) :
  schedulerInterval (run boot l0) <> None ->
  cycles (run boot (l0 ++ Signal sg :: l)) = cycles (run boot l0).
Proof.
  intros N. rewrite proc_run_app, proc_run_cons.
  pose proof (run_armed_once l0 boot armed_once_boot) as A.
  unfold armed_once in A.
  destruct (schedulerInterval (run boot l0)) as [t|] eqn:Ht; [|congruence].
  unfold step. destruct (exited (run boot l0)) as [c|] eqn:H.
  - now rewrite (run_exited l _ c H).
  - destruct (shutdown_stopped (run boot l0) sg A) as [St E];
      [congruence|].
    rewrite (run_stopped l _ St). exact E.
Qed.

Lemma no_cycle_after_shutdown_witness :
  cycles (run boot ([Settle 0 Fulfilled; Elapse 300000; TimerFire]
                      ++ Signal SIGTERM
                      :: [Elapse 300000; TimerFire; Elapse 300000; TimerFire]))
  = 2%nat.
Proof.
  apply (no_cycle_after_shutdown
           [Settle 0 Fulfilled; Elapse 300000; TimerFire]
           [Elapse 300000; TimerFire; Elapse 300000; TimerFire] SIGTERM).
  discriminate.
Defined.







End ProcessMore.

(* ------------------------------------------------------------------ *)
(** ** Request rate limiting *)

Section RateLimiting.

Import RateLimit.

Lemma get_set_same (m : store) (k : string) (e : RateLimitEntry) :
  get (set m k e) k = Some e.
Proof. unfold get, set. now rewrite String.eqb_refl. Qed.

Lemma get_set_other (m : store) (k k' : string) (e : RateLimitEntry) :
  k' <> k -> get (set m k e) k' = get m k'.
Proof.
  intros H. unfold get, set.
  destruct (String.eqb k' k) eqn:E; [|reflexivity].
  apply String.eqb_eq in E. contradiction.
Qed.

(** X4.  Keys do not interfere: a call for [key] leaves the entry of every
    other key as it was, and its answer and the entry it leaves for
    [key] depend on nothing but the entry [key] had. *)
Theorem checkRateLimit_keys_independent
        (key other : string) (maxRequests windowMs now : Z) (m m' : store) :
  other <> key ->
  get m key = get m' key ->
  get (fst (checkRateLimit key maxRequests windowMs now m)) other
  = get m other
  /\ snd (checkRateLimit key maxRequests windowMs now m)
     = snd (checkRateLimit key maxRequests windowMs now m')
  /\ get (fst (checkRateLimit key maxRequests windowMs now m)) key
     = get (fst (checkRateLimit key maxRequests windowMs now m')) key.
Proof.
  intros Hk Hm. unfold checkRateLimit. rewrite <- Hm.
  destruct (get m key) as [rec|] eqn:G.
  - destruct (resetTime rec <? now).
    + cbn [fst snd]. rewrite !get_set_same.
      now rewrite (get_set_other m key other _ Hk).
    + destruct (maxRequests <=? count rec); cbn [fst snd].
      * repeat split. now rewrite G, <- Hm.
      * rewrite !get_set_same.
        now rewrite (get_set_other m key other _ Hk).
  - cbn [fst snd]. rewrite !get_set_same.
    now rewrite (get_set_other m key other _ Hk).
Qed.

Lemma checkRateLimit_keys_independent_witness :
  get (fst (checkRateLimit "follow-action:10.0.0.1" 30 60000 5000
              (fst (checkRateLimit "search:10.0.0.1" 60 60000 1000 empty))))
      "search:10.0.0.1"
  = Some {| count := 1; resetTime := 61000 |}.
Proof.
  apply (checkRateLimit_keys_independent
           "follow-action:10.0.0.1" "search:10.0.0.1" 30 60000 5000
           (fst (checkRateLimit "search:10.0.0.1" 60 60000 1000 empty))
           (fst (checkRateLimit "search:10.0.0.1" 60 60000 1000 empty)));
    [discriminate | reflexivity].
Defined.

(** Calls inside an open window: each is let through while the count is
    below the limit. *)
Lemma replay_open_window (key : string) (maxRequests windowMs : Z)
      (ts : list Z) :
  forall (m : store) (c r : Z),
    get m key = Some {| count := c; resetTime := r |} ->
    (forall t, In t ts -> t <= r) ->
    allowed (snd (replay (burst key maxRequests windowMs ts) m))
    = Nat.min (length ts) (Z.to_nat (maxRequests - c)).
Proof.
  induction ts as [|t ts IH]; intros m c r G Hts; [reflexivity|].
  cbn [burst map replay]. fold (burst key maxRequests windowMs ts).
  cbn [req_key req_max req_window req_time].
  unfold checkRateLimit at 1. rewrite G. cbn [resetTime count].
  assert (Ht : (r <? t) = false).
  { apply Z.ltb_ge. apply Hts. now left. }
  rewrite Ht.
  destruct (maxRequests <=? c) eqn:L.
  - apply Z.leb_le in L.
    destruct (replay (burst key maxRequests windowMs ts) m) as [m2 oks] eqn:R.
    cbn [snd]. unfold allowed. cbn [filter].
    fold (allowed oks).
    replace oks with (snd (replay (burst key maxRequests windowMs ts) m))
      by now rewrite R.
    rewrite (IH m c r G) by (intros; apply Hts; now right).
    replace (Z.to_nat (maxRequests - c)) with 0%nat by lia.
    now rewrite !Nat.min_0_r.
  - apply Z.leb_gt in L.
    destruct (replay (burst key maxRequests windowMs ts)
                (set m key {| count := c + 1; resetTime := r |}))
      as [m2 oks] eqn:R.
    cbn [snd]. unfold allowed. cbn [filter length].
    fold (allowed oks).
    replace oks with
      (snd (replay (burst key maxRequests windowMs ts)
              (set m key {| count := c + 1; resetTime := r |})))
      by now rewrite R.
    rewrite (IH _ (c + 1) r (get_set_same _ _ _))
      by (intros; apply Hts; now right).
    replace (Z.to_nat (maxRequests - c))
      with (S (Z.to_nat (maxRequests - (c + 1)))) by lia.
    reflexivity.
Qed.

(** X5.  One window: the call that opens it is always let through, even with
    a limit of zero; of all the calls up to the end of the window exactly
    the first [maxRequests] are. *)
Theorem checkRateLimit_window_bound
        (key : string) (maxRequests windowMs t0 : Z) (ts : list Z)
        (m : store) :
  no_window m key t0 = true ->
  (forall t, In t ts -> t <= t0 + windowMs) ->
  allowed (snd (replay (burst key maxRequests windowMs (t0 :: ts)) m))
  = Nat.min (S (length ts)) (Z.to_nat (Z.max 1 maxRequests)).
Proof.
  intros Hw Hts.
  cbn [burst map replay]. fold (burst key maxRequests windowMs ts).
  cbn [req_key req_max req_window req_time].
  assert (E : checkRateLimit key maxRequests windowMs t0 m
              = (set m key {| count := 1; resetTime := t0 + windowMs |},
                 true)).
  { unfold checkRateLimit. unfold no_window in Hw.
    destruct (get m key) as [rec|]; [now rewrite Hw | reflexivity]. }
  rewrite E.
  destruct (replay (burst key maxRequests windowMs ts)
              (set m key {| count := 1; resetTime := t0 + windowMs |}))
    as [m2 oks] eqn:R.
  cbn [snd]. unfold allowed. cbn [filter length]. fold (allowed oks).
  replace oks with
    (snd (replay (burst key maxRequests windowMs ts)
            (set m key {| count := 1; resetTime := t0 + windowMs |})))
    by now rewrite R.
  rewrite (replay_open_window key maxRequests windowMs ts _ 1
             (t0 + windowMs) (get_set_same _ _ _) Hts).
  lia.
Qed.

(** Six sign-in attempts from one address within a minute: the sixth is
    turned away. *)
Lemma checkRateLimit_window_bound_witness :
  allowed (snd (replay (burst "auth:203.0.113.9" 5 60000
                               (0 :: [100; 200; 300; 400; 60000]))
                        empty))
  = 5%nat.
Proof.
  apply (checkRateLimit_window_bound "auth:203.0.113.9" 5 60000 0
           [100; 200; 300; 400; 60000] empty).
  - reflexivity.
  - intros t Ht. cbn in Ht.
    repeat (destruct Ht as [<-|Ht]; [lia|]). destruct Ht.
Defined.

Lemma no_window_later (m : store) (k : string) (t t' : Z) :
  t <= t' -> no_window m k t = true -> no_window m k t' = true.
Proof.
  unfold no_window. destruct (get m k) as [rec|]; [|reflexivity].
  intros Ht H. apply Z.ltb_lt in H. apply Z.ltb_lt. lia.
Qed.

Lemma checkRateLimit_no_window (m : store) (k : string) (mx w t : Z) :
  no_window m k t = true ->
  checkRateLimit k mx w t m
  = (set m k {| count := 1; resetTime := t + w |}, true).
Proof.
  unfold checkRateLimit, no_window.
  destruct (get m k) as [rec|]; [intros ->|]; reflexivity.
Qed.

Lemma no_window_set_other (m : store) (k k' : string) (e : RateLimitEntry)
      (t : Z) :
  k' <> k -> no_window (set m k e) k' t = no_window m k' t.
Proof. intros H. unfold no_window. now rewrite get_set_other. Qed.

Lemma agree_from_step (t : Z) (r : request) (m1 m2 : store) :
  agree_from t m1 m2 -> t <= req_time r ->
  snd (checkRateLimit (req_key r) (req_max r) (req_window r) (req_time r) m1)
  = snd (checkRateLimit (req_key r) (req_max r) (req_window r) (req_time r)
           m2)
  /\ agree_from t
       (fst (checkRateLimit (req_key r) (req_max r) (req_window r)
               (req_time r) m1))
       (fst (checkRateLimit (req_key r) (req_max r) (req_window r)
               (req_time r) m2)).
Proof.
  destruct r as [k mx w tr]. cbn [req_key req_max req_window req_time].
  intros A Ht.
  assert (Hother : forall e1 e2, e1 = e2 ->
            agree_from t (set m1 k e1) (set m2 k e2)).
  { intros e1 e2 <- k'. destruct (String.eqb k' k) eqn:E.
    - apply String.eqb_eq in E. subst k'. left. now rewrite !get_set_same.
    - apply String.eqb_neq in E. rewrite !get_set_other by exact E.
      rewrite !no_window_set_other by exact E. apply A. }
  destruct (A k) as [Eq | [N1 N2]].
  - unfold checkRateLimit. rewrite <- Eq.
    destruct (get m1 k) as [rec|]; [|split; [reflexivity | now apply Hother]].
    destruct (resetTime rec <? tr);
      [split; [reflexivity | now apply Hother]|].
    destruct (mx <=? count rec);
      split; try reflexivity; [exact A | now apply Hother].
  - rewrite !checkRateLimit_no_window
      by (eapply no_window_later; [exact Ht | assumption]).
    split; [reflexivity | now apply Hother].
Qed.

Lemma replay_agree (t : Z) (l : list request) :
  forall m1 m2 : store,
    agree_from t m1 m2 ->
    (forall r, In r l -> t <= req_time r) ->
    snd (replay l m1) = snd (replay l m2).
Proof.
  induction l as [|r l IH]; intros m1 m2 A Hl; [reflexivity|].
  cbn [replay].
  destruct (agree_from_step t r m1 m2 A (Hl r (or_introl eq_refl)))
    as [E A'].
  destruct (checkRateLimit (req_key r) (req_max r) (req_window r)
              (req_time r) m1) as [m1' ok1].
  destruct (checkRateLimit (req_key r) (req_max r) (req_window r)
              (req_time r) m2) as [m2' ok2].
  cbn [fst snd] in E, A'. subst ok2.
  specialize (IH m1' m2' A' (fun r' H => Hl r' (or_intror H))).
  destruct (replay l m1') as [n1 oks1]. destruct (replay l m2') as [n2 oks2].
  cbn [snd] in *. now rewrite IH.
Qed.

Lemma agree_from_cleanup (t : Z) (m : store) : agree_from t (cleanup t m) m.
Proof.
  intros k. unfold no_window, get, cleanup.
  destruct (m k) as [rec|]; [|now left].
  destruct (resetTime rec <? t) eqn:E; [right | left]; auto.
Qed.

(** X6.  The periodic [cleanup] cannot be observed: whatever calls are made
    afterwards, for whatever keys and limits, each gets the answer it
    would have got had the cleanup not run. *)
Theorem cleanup_is_transparent (now : Z) (l : list request) (m : store) :
  (forall r, In r l -> now <= req_time r) ->
  snd (replay l (cleanup now m)) = snd (replay l m).
Proof.
  intros Hl. apply (replay_agree now l); [apply agree_from_cleanup | exact Hl].
Qed.

Lemma cleanup_is_transparent_witness :
  snd (replay (burst "search:10.0.0.1" 2 1000 [300000; 300500; 300900])
         (cleanup 300000
            (fst (replay (burst "search:10.0.0.1" 2 1000 [299500; 299600]
                          ++ burst "library-add:u1" 30 60000 [100])
                    empty))))
  = snd (replay (burst "search:10.0.0.1" 2 1000 [300000; 300500; 300900])
           (fst (replay (burst "search:10.0.0.1" 2 1000 [299500; 299600]
                         ++ burst "library-add:u1" 30 60000 [100])
                   empty))).
Proof.
  apply (cleanup_is_transparent 300000
           (burst "search:10.0.0.1" 2 1000 [300000; 300500; 300900])
           (fst (replay (burst "search:10.0.0.1" 2 1000 [299500; 299600]
                         ++ burst "library-add:u1" 30 60000 [100])
                   empty))).
  intros r Hr. cbn in Hr.
  repeat (destruct Hr as [<-|Hr]; [cbn; lia|]). destruct Hr.
Defined.

Section Rolling.

Variable key : string.
Variables maxRequests windowMs a : Z.

Lemma allowed_between_cons (t : Z) (ts : list Z) (ok : bool)
      (oks : list bool) :
  Z.of_nat (allowed_between a (a + windowMs) (t :: ts) (ok :: oks))
  = (if ok && (a <=? t) && (t <=? a + windowMs) then 1 else 0)
    + Z.of_nat (allowed_between a (a + windowMs) ts oks).
Proof.
  unfold allowed_between. cbn [combine filter fst snd].
  destruct (ok && (a <=? t) && (t <=? a + windowMs)); cbn [length]; lia.
Qed.

Lemma rolling_window_aux (ts : list Z) :
  forall (m : store) (c r last n : Z),
    get m key = Some {| count := c; resetTime := r |} ->
    1 <= c <= Z.max 1 maxRequests ->
    ascending last ts = true ->
    r - windowMs <= last ->
    0 <= n <= room maxRequests windowMs a c r ->
    (0 < n -> a <= last) ->
    n + Z.of_nat
          (allowed_between a (a + windowMs) ts
             (snd (replay (burst key maxRequests windowMs ts) m)))
    <= 2 * Z.max 1 maxRequests - 1.
Proof.
  induction ts as [|t ts IH]; intros m c r last n G Hc Hs Hr Hn Hpos.
  - unfold allowed_between.
    cbn [burst map replay snd combine filter length Z.of_nat].
    rewrite Z.add_0_r. unfold room in Hn.
    destruct (r - windowMs <? a); [lia|].
    destruct (r - windowMs <=? a + windowMs); lia.
  - cbn [ascending] in Hs. apply andb_prop in Hs. destruct Hs as [Hlt Hs].
    apply Z.leb_le in Hlt.
    cbn [burst map replay]. fold (burst key maxRequests windowMs ts).
    cbn [req_key req_max req_window req_time].
    unfold checkRateLimit at 1. rewrite G. cbn [resetTime count].
    unfold room in Hn.
    destruct (r <? t) eqn:Ex.
    + (* the window is over: this call opens the next one *)
      apply Z.ltb_lt in Ex.
      destruct (replay (burst key maxRequests windowMs ts)
                  (set m key {| count := 1; resetTime := t + windowMs |}))
        as [m2 oks] eqn:R.
      cbn [snd]. rewrite allowed_between_cons. cbn [andb].
      replace oks with
        (snd (replay (burst key maxRequests windowMs ts)
                (set m key {| count := 1; resetTime := t + windowMs |})))
        by now rewrite R.
      rewrite Z.add_assoc.
      apply (IH _ 1 (t + windowMs) t); try exact Hs;
        [apply get_set_same | lia | lia | | ].
      * unfold room.
        replace (t + windowMs - windowMs) with t by lia.
        destruct (a <=? t) eqn:E1; destruct (t <=? a + windowMs) eqn:E2;
          destruct (r - windowMs <? a) eqn:E3;
          try destruct (r - windowMs <=? a + windowMs) eqn:E4;
          destruct (t <? a) eqn:E5;
          try destruct (t <=? a + windowMs) eqn:E6;
          cbn [andb]; try discriminate;
          rewrite ?Z.leb_le, ?Z.leb_gt, ?Z.ltb_lt, ?Z.ltb_ge in *; lia.
      * destruct (a <=? t) eqn:E1; destruct (t <=? a + windowMs) eqn:E2;
          cbn [andb]; rewrite ?Z.leb_le, ?Z.leb_gt in *; lia.
    + apply Z.ltb_ge in Ex.
      destruct (maxRequests <=? c) eqn:L.
      * (* the limit is reached: turned away *)
        apply Z.leb_le in L.
        destruct (replay (burst key maxRequests windowMs ts) m)
          as [m2 oks] eqn:R.
        cbn [snd]. rewrite allowed_between_cons. cbn [andb].
        replace oks with
          (snd (replay (burst key maxRequests windowMs ts) m))
          by now rewrite R.
        cbn [Z.add]. apply (IH m c r t); try assumption; lia.
      * (* let through inside the window *)
        apply Z.leb_gt in L.
        destruct (replay (burst key maxRequests windowMs ts)
                    (set m key {| count := c + 1; resetTime := r |}))
          as [m2 oks] eqn:R.
        cbn [snd]. rewrite allowed_between_cons. cbn [andb].
        replace oks with
          (snd (replay (burst key maxRequests windowMs ts)
                  (set m key {| count := c + 1; resetTime := r |})))
          by now rewrite R.
        rewrite Z.add_assoc.
        apply (IH _ (c + 1) r t); try exact Hs;
          [apply get_set_same | lia | lia | | ].
        -- unfold room.
           destruct (a <=? t) eqn:E1; destruct (t <=? a + windowMs) eqn:E2;
             destruct (r - windowMs <? a) eqn:E3;
             try destruct (r - windowMs <=? a + windowMs) eqn:E4;
             cbn [andb];
             rewrite ?Z.leb_le, ?Z.leb_gt, ?Z.ltb_lt, ?Z.ltb_ge in *; lia.
        -- destruct (a <=? t) eqn:E1; destruct (t <=? a + windowMs) eqn:E2;
             cbn [andb]; rewrite ?Z.leb_le, ?Z.leb_gt in *; lia.
Qed.

End Rolling.

(** X7.  Across two windows: of the calls for one key made at times that never
    go back, starting with no window open, fewer than twice the limit are
    let through within any span of [windowMs] milliseconds. *)
Theorem checkRateLimit_rolling_bound
        (key : string) (maxRequests windowMs a t0 : Z) (ts : list Z)
        (m : store) :
  no_window m key t0 = true ->
  ascending t0 ts = true ->
  Z.of_nat
    (allowed_between a (a + windowMs) (t0 :: ts)
       (snd (replay (burst key maxRequests windowMs (t0 :: ts)) m)))
  <= 2 * Z.max 1 maxRequests - 1.
Proof.
  intros Hw Hs.
  cbn [burst map replay]. fold (burst key maxRequests windowMs ts).
  cbn [req_key req_max req_window req_time].
  rewrite (checkRateLimit_no_window m key maxRequests windowMs t0 Hw).
  destruct (replay (burst key maxRequests windowMs ts)
              (set m key {| count := 1; resetTime := t0 + windowMs |}))
    as [m2 oks] eqn:R.
  cbn [snd]. rewrite allowed_between_cons. cbn [andb].
  replace oks with
    (snd (replay (burst key maxRequests windowMs ts)
            (set m key {| count := 1; resetTime := t0 + windowMs |})))
    by now rewrite R.
  apply (rolling_window_aux key maxRequests windowMs a ts _ 1
           (t0 + windowMs) t0); try exact Hs;
    [apply get_set_same | lia | lia | | ].
  - unfold room.
    replace (t0 + windowMs - windowMs) with t0 by lia.
    destruct (a <=? t0) eqn:E1; destruct (t0 <=? a + windowMs) eqn:E2;
      destruct (t0 <? a) eqn:E5;
      cbn [andb];
      rewrite ?Z.leb_le, ?Z.leb_gt, ?Z.ltb_lt, ?Z.ltb_ge in *; lia.
  - destruct (a <=? t0) eqn:E1; destruct (t0 <=? a + windowMs) eqn:E2;
      cbn [andb]; rewrite ?Z.leb_le, ?Z.leb_gt in *; lia.
Qed.

(** The bound is met: with a limit of 30 a minute, 59 calls pass within
    one minute around the end of a window. *)
Example checkRateLimit_burst_at_window_end :
  allowed_between 60000 (60000 + 60000)
    (0 :: repeat 60000 29 ++ repeat 60001 30)
    (snd (replay (burst "follow-action:10.0.0.1" 30 60000
                        (0 :: repeat 60000 29 ++ repeat 60001 30))
            empty))
  = 59%nat.
Proof. vm_compute. reflexivity. Qed.

Lemma checkRateLimit_rolling_bound_witness :
  Z.of_nat
    (allowed_between 60000 (60000 + 60000)
       (0 :: repeat 60000 29 ++ repeat 60001 30)
       (snd (replay (burst "follow-action:10.0.0.1" 30 60000
                           (0 :: repeat 60000 29 ++ repeat 60001 30))
               empty)))
  <= 2 * Z.max 1 30 - 1.
Proof.
  apply (checkRateLimit_rolling_bound "follow-action:10.0.0.1" 30 60000
           60000 0 (repeat 60000 29 ++ repeat 60001 30) empty);
    reflexivity.
Defined.

End RateLimiting.

(* ------------------------------------------------------------------ *)
(** ** Text handling of the request layer *)

Section TextProperties.

Import Text.

Lemma lookup_entities (c : Z) :
  lookup c entities
  = if c =? amp then Some (str "&amp;")
    else if c =? lt then Some (str "&lt;")
    else if c =? gt then Some (str "&gt;")
    else if c =? quot then Some (str "&quot;")
    else if c =? apos then Some (str "&#x27;")
    else None.
Proof. reflexivity. Qed.

Ltac case_units :=
  repeat match goal with
         | |- context [?c =? ?k] =>
             let E := fresh "E" in
             destruct (c =? k) eqn:E;
             [apply Z.eqb_eq in E; subst | apply Z.eqb_neq in E]
         end.

Lemma replacer_cases (c : Z) :
  replacer c
  = if c =? 38 then [38; 97; 109; 112; 59]
    else if c =? 60 then [38; 108; 116; 59]
    else if c =? 62 then [38; 103; 116; 59]
    else if c =? 34 then [38; 113; 117; 111; 116; 59]
    else if c =? 39 then [38; 35; 120; 50; 55; 59]
    else [c].
Proof.
  unfold replacer. rewrite lookup_entities. unfold amp, lt, gt, quot, apos.
  repeat match goal with |- context [?x =? ?k] => destruct (x =? k) end;
    reflexivity.
Qed.

Lemma htmlEncode_cons (c : Z) (s : jsstring) :
  htmlEncode (c :: s) = replacer c ++ htmlEncode s.
Proof. reflexivity. Qed.

(** X8.  Whatever the input, the text [htmlEncode] returns contains none of
    the characters [<], [>], double quote and apostrophe. *)
Theorem htmlEncode_no_markup (input : jsstring) :
  existsb is_markup (htmlEncode input) = false.
Proof.
  induction input as [|c rest IH]; [reflexivity|].
  rewrite htmlEncode_cons, existsb_app, IH, orb_false_r, replacer_cases.
  case_units; try reflexivity.
  cbn [existsb]. unfold is_markup, lt, gt, quot, apos.
  rewrite orb_false_r.
  repeat (apply orb_false_intro); apply Z.eqb_neq; assumption.
Qed.

Lemma replacer_head (c : Z) : exists h t, replacer c = h :: t.
Proof.
  rewrite replacer_cases.
  repeat match goal with |- context [?x =? ?k] => destruct (x =? k) end;
    eauto.
Qed.

(** The replacement of a code unit can be read off the front of any text
    that starts with it. *)
Lemma replacer_prefix (x y : Z) (u v : jsstring) :
  replacer x ++ u = replacer y ++ v -> x = y /\ u = v.
Proof.
  rewrite !replacer_cases.
  destruct (x =? 38) eqn:X1; [|destruct (x =? 60) eqn:X2;
    [|destruct (x =? 62) eqn:X3; [|destruct (x =? 34) eqn:X4;
      [|destruct (x =? 39) eqn:X5]]]];
  (destruct (y =? 38) eqn:Y1; [|destruct (y =? 60) eqn:Y2;
    [|destruct (y =? 62) eqn:Y3; [|destruct (y =? 34) eqn:Y4;
      [|destruct (y =? 39) eqn:Y5]]]]);
  cbn [app]; intros H;
  rewrite ?Z.eqb_eq, ?Z.eqb_neq in *;
  try (injection H as ?; subst; split; congruence);
  try (injection H as ?; congruence).
Qed.

(** X9.  [htmlEncode] loses nothing: two texts with the same encoding are
    the same text. *)
Theorem htmlEncode_injective (a b : jsstring) :
  htmlEncode a = htmlEncode b -> a = b.
Proof.
  revert b. induction a as [|x a IH]; intros [|y b] H.
  - reflexivity.
  - exfalso. rewrite htmlEncode_cons in H.
    destruct (replacer_head y) as (h & t & E). rewrite E in H.
    discriminate.
  - exfalso. rewrite htmlEncode_cons in H.
    destruct (replacer_head x) as (h & t & E). rewrite E in H.
    discriminate.
  - rewrite !htmlEncode_cons in H.
    apply replacer_prefix in H. destruct H as [-> H].
    f_equal. now apply IH.
Qed.

Lemma htmlEncode_injective_witness :
  str "a<b" = str "a<b".
Proof. apply (htmlEncode_injective (str "a<b") (str "a<b")). reflexivity.
Defined.

Lemma replaceAll_app (c : Z) (r x y : jsstring) :
  replaceAll c r (x ++ y) = replaceAll c r x ++ replaceAll c r y.
Proof. unfold replaceAll. apply flat_map_app. Qed.

Lemma escapeILikePattern_cons (c : Z) (s : jsstring) :
  escapeILikePattern (c :: s) = escape_unit c ++ escapeILikePattern s.
Proof.
  unfold escapeILikePattern.
  change (c :: s) with ([c] ++ s).
  rewrite !replaceAll_app. f_equal.
  unfold escape_unit, replaceAll, backslash, percent, underscore.
  cbn [flat_map app].
  destruct (c =? 92) eqn:E1; [reflexivity|].
  cbn [flat_map app]. destruct (c =? 37) eqn:E2; [reflexivity|].
  cbn [flat_map app]. destruct (c =? 95) eqn:E3; reflexivity.
Qed.

(** X10.  The pattern [escapeILikePattern] returns is read as literal text
    only, and the literals spell the input: no [%] or [_] of the input
    acts as a wildcard, no backslash of the input escapes what follows,
    and the pattern never ends in a lone backslash. *)
Theorem escapeILikePattern_reads_literally (input : jsstring) :
  read_pattern (escapeILikePattern input) = Some (map Lit input).
Proof.
  induction input as [|c rest IH]; [reflexivity|].
  rewrite escapeILikePattern_cons. unfold escape_unit.
  destruct (c =? backslash) eqn:E1.
  - apply Z.eqb_eq in E1. subst c. cbn [app read_pattern].
    rewrite Z.eqb_refl, IH. reflexivity.
  - destruct (c =? percent) eqn:E2.
    + apply Z.eqb_eq in E2. subst c. cbn [app read_pattern].
      rewrite Z.eqb_refl, IH. reflexivity.
    + destruct (c =? underscore) eqn:E3.
      * apply Z.eqb_eq in E3. subst c. cbn [app read_pattern].
        rewrite Z.eqb_refl, IH. reflexivity.
      * cbn [app read_pattern]. rewrite E1, E2, E3, IH. reflexivity.
Qed.

Lemma subseq_refl (s : jsstring) : subseq s s.
Proof. induction s; constructor; assumption. Qed.

Lemma subseq_trans (a b c : jsstring) :
  subseq a b -> subseq b c -> subseq a c.
Proof.
  intros H1 H2. revert a H1.
  induction H2 as [|x l s H IH|x l s H IH]; intros a H1.
  - exact H1.
  - constructor. now apply IH.
  - inversion H1; subst; constructor; now apply IH.
Qed.

Lemma subseq_existsb (P : Z -> bool) (l s : jsstring) :
  subseq l s -> existsb P s = false -> existsb P l = false.
Proof.
  induction 1 as [|c l s H IH|c l s H IH]; cbn [existsb]; intros E.
  - reflexivity.
  - apply orb_false_elim in E. now apply IH.
  - apply orb_false_elim in E. destruct E as [-> E]. now apply IH.
Qed.

Lemma subseq_has_tag (l s : jsstring) :
  subseq l s -> has_tag s = false -> has_tag l = false.
Proof.
  induction 1 as [|c l s H IH|c l s H IH]; cbn [has_tag]; intros E.
  - reflexivity.
  - apply orb_false_elim in E. now apply IH.
  - apply orb_false_elim in E. destruct E as [E1 E2].
    rewrite (IH E2), orb_false_r.
    destruct (c =? lt); [|reflexivity]. cbn [andb] in *.
    now apply (subseq_existsb _ l s).
Qed.

Lemma strip_tags_subseq (inside : bool) (s : jsstring) :
  subseq (strip_tags inside s) s.
Proof.
  revert inside. induction s as [|c rest IH]; intros inside; cbn.
  - constructor.
  - destruct inside.
    + destruct (c =? gt); constructor; apply IH.
    + destruct ((c =? lt) && existsb (Z.eqb gt) rest); constructor; apply IH.
Qed.

Lemma remove_protocol_subseq (skip : nat) (s : jsstring) :
  subseq (remove_protocol skip s) s.
Proof.
  revert skip. induction s as [|c rest IH]; intros skip.
  - destruct skip; constructor.
  - cbn [remove_protocol]. destruct skip as [|k].
    + destruct (starts_with_ci (str "javascript:") (c :: rest));
        constructor; apply IH.
    + constructor. apply IH.
Qed.

Lemma remove_handlers_subseq (skip : nat) (s : jsstring) :
  subseq (remove_handlers skip s) s.
Proof.
  revert skip. induction s as [|c rest IH]; intros skip.
  - destruct skip; constructor.
  - cbn [remove_handlers]. destruct skip as [|k].
    + destruct (match_handler (c :: rest)); constructor; apply IH.
    + constructor. apply IH.
Qed.

Lemma strip_tags_no_tag (inside : bool) (s : jsstring) :
  has_tag (strip_tags inside s) = false.
Proof.
  revert inside. induction s as [|c rest IH]; intros inside.
  - reflexivity.
  - cbn [strip_tags]. destruct inside.
    + destruct (c =? gt); apply IH.
    + destruct ((c =? lt) && existsb (Z.eqb gt) rest) eqn:E; [apply IH|].
      cbn [has_tag]. rewrite IH, orb_false_r.
      destruct (c =? lt); [|reflexivity]. cbn [andb] in *.
      apply (subseq_existsb _ _ rest); [apply strip_tags_subseq | exact E].
Qed.

(** X11.  Whatever the input and the length limit, the text [sanitizeInput]
    returns holds no [<] with a [>] anywhere after it: the removals that
    follow the removal of the tags only take code units away and cannot
    put a tag together again. *)
Theorem sanitizeInput_no_tag (input : jsstring) (maxLength : Z) :
  has_tag (sanitizeInput input maxLength) = false.
Proof.
  unfold sanitizeInput.
  apply (subseq_has_tag _ (strip_tags false (slice0 (trim input) maxLength))).
  - apply (subseq_trans _ (remove_protocol 0
                             (strip_tags false
                                (slice0 (trim input) maxLength)))).
    + apply remove_handlers_subseq.
    + apply remove_protocol_subseq.
  - apply strip_tags_no_tag.
Qed.

(** The removals are made in one pass each: what a removal puts together
    is not looked at again. *)
Example sanitizeInput_single_pass :
  sanitizeInput (str " javajavascript:script:alert(1) ") 10000
  = str "javascript:alert(1)"
  /\ sanitizeInput (str "<a href=x oonx=nclick=go()>") 10000 = []
  /\ sanitizeInput (str "oonx=nclick=go() >") 10000 = str "onclick=go() >".
Proof. repeat split; vm_compute; reflexivity. Qed.

Lemma name_char_plain (c : Z) :
  is_name_char c = true ->
  is_white_space c = false /\ c <> lt /\ c <> 58 /\ c <> equals_sign
  /\ lookup c entities = None.
Proof.
  unfold is_name_char, is_word, underscore, hyphen, lt, equals_sign.
  rewrite !orb_true_iff, !andb_true_iff, !Z.leb_le, !Z.eqb_eq. intros H.
  split; [|split; [|split; [|split]]]; try lia.
  - apply not_true_is_false. unfold is_white_space.
    rewrite !orb_true_iff, !andb_true_iff, !Z.leb_le, !Z.eqb_eq. lia.
  - rewrite lookup_entities. unfold amp, lt, gt, quot, apos.
    repeat match goal with
           | |- context [?x =? ?k] =>
               let E := fresh in
               destruct (x =? k) eqn:E; [apply Z.eqb_eq in E; lia|]
           end.
    reflexivity.
Qed.

Lemma trimStart_plain (s : jsstring) :
  existsb is_white_space s = false -> trimStart s = s.
Proof.
  destruct s as [|c rest]; [reflexivity|]. cbn [existsb trimStart].
  intros E. apply orb_false_elim in E. destruct E as [-> _]. reflexivity.
Qed.

Lemma trim_plain (s : jsstring) :
  existsb is_white_space s = false -> trim s = s.
Proof.
  intros E. unfold trim, trimEnd. rewrite (trimStart_plain s E).
  rewrite trimStart_plain; [apply rev_involutive|].
  apply not_true_is_false. intros H.
  apply existsb_exists in H. destruct H as (x & Hx & Wx).
  apply in_rev in Hx.
  assert (existsb is_white_space s = true)
    by (apply existsb_exists; eauto).
  congruence.
Qed.

Lemma strip_tags_plain (s : jsstring) :
  existsb (Z.eqb lt) s = false -> strip_tags false s = s.
Proof.
  induction s as [|c rest IH]; [reflexivity|]. cbn [existsb strip_tags].
  intros E. apply orb_false_elim in E. destruct E as [E1 E2].
  rewrite Z.eqb_sym in E1. rewrite E1. cbn [andb]. now rewrite IH.
Qed.

Lemma upper_colon (b : Z) : upper b = 58 -> b = 58.
Proof.
  unfold upper. destruct ((97 <=? b) && (b <=? 122)) eqn:E; [|auto].
  apply andb_true_iff in E. rewrite !Z.leb_le in E. lia.
Qed.

Lemma starts_with_colon (p s : jsstring) :
  starts_with_ci (p ++ [58]) s = true -> existsb (Z.eqb 58) s = true.
Proof.
  revert s.
  induction p as [|a p IH]; intros [|b s];
    cbn [starts_with_ci app existsb]; try discriminate.
  - intros H. apply andb_true_iff in H. destruct H as [H _].
    unfold eq_ci in H. apply Z.eqb_eq in H.
    change (upper 58) with 58 in H. symmetry in H.
    apply upper_colon in H. subst b. reflexivity.
  - intros H. apply andb_true_iff in H. destruct H as [_ H].
    rewrite (IH s H). apply orb_true_r.
Qed.

Lemma remove_protocol_plain (s : jsstring) :
  existsb (Z.eqb 58) s = false -> remove_protocol 0 s = s.
Proof.
  induction s as [|c rest IH]; [reflexivity|]. intros E.
  cbn [remove_protocol].
  destruct (starts_with_ci (str "javascript:") (c :: rest)) eqn:S.
  - change (str "javascript:") with (str "javascript" ++ [58]) in S.
    apply starts_with_colon in S. congruence.
  - cbn [existsb] in E. apply orb_false_elim in E. destruct E as [_ E].
    now rewrite IH.
Qed.

Lemma match_handler_equals (s : jsstring) (n : nat) :
  match_handler s = Some n -> existsb (Z.eqb equals_sign) s = true.
Proof.
  destruct s as [|o [|m rest]]; cbn [match_handler]; try discriminate.
  destruct (eq_ci o 111 && eq_ci m 110); [|discriminate].
  set (w := span is_word rest).
  set (k := span is_white_space (skipn w rest)).
  destruct w as [|w']; [discriminate|].
  destruct (skipn (S w' + k) rest) as [|e tl] eqn:K; [discriminate|].
  destruct (e =? equals_sign) eqn:E; [|discriminate]. intros _.
  apply Z.eqb_eq in E. subst e.
  apply existsb_exists. exists equals_sign. split; [|apply Z.eqb_refl].
  right. right. rewrite <- (firstn_skipn (S w' + k) rest), K.
  apply in_or_app. right. now left.
Qed.

Lemma remove_handlers_plain (s : jsstring) :
  existsb (Z.eqb equals_sign) s = false -> remove_handlers 0 s = s.
Proof.
  induction s as [|c rest IH]; [reflexivity|]. intros E.
  cbn [remove_handlers].
  destruct (match_handler (c :: rest)) as [n|] eqn:M.
  - apply match_handler_equals in M. congruence.
  - cbn [existsb] in E. apply orb_false_elim in E. destruct E as [_ E].
    now rewrite IH.
Qed.

Lemma existsb_name (P : Z -> bool) (s : jsstring) :
  (forall c, is_name_char c = true -> P c = false) ->
  forallb is_name_char s = true -> existsb P s = false.
Proof.
  intros HP. induction s as [|c rest IH]; [reflexivity|].
  cbn [forallb existsb]. intros H. apply andb_true_iff in H.
  destruct H as [H1 H2]. now rewrite (HP c H1), IH.
Qed.

(** X12.  A user name that [validateUsername] accepts holds nothing the
    sanitizers would touch: [sanitizeInput] (with any length limit of 30
    or more) and [htmlEncode] return it unchanged. *)
Theorem valid_username_is_plain (username : jsstring) (maxLength : Z) :
  validateUsername username = true ->
  30 <= maxLength ->
  sanitizeInput username maxLength = username
  /\ htmlEncode username = username.
Proof.
  unfold validateUsername. intros V L.
  apply andb_true_iff in V. destruct V as [V N].
  apply andb_true_iff in V. destruct V as [_ V].
  apply Nat.leb_le in V.
  split.
  - unfold sanitizeInput.
    rewrite trim_plain
      by (apply existsb_name; [|exact N]; intros c Hc;
          apply (name_char_plain c Hc)).
    assert (S : slice0 username maxLength = username).
    { unfold slice0. destruct (maxLength <? 0) eqn:E;
        [apply Z.ltb_lt in E; lia|].
      apply firstn_all2. lia. }
    rewrite S.
    rewrite strip_tags_plain
      by (apply existsb_name; [|exact N]; intros c Hc;
          apply Z.eqb_neq; intros <-;
          now destruct (name_char_plain lt Hc) as (_ & ? & _)).
    rewrite remove_protocol_plain
      by (apply existsb_name; [|exact N]; intros c Hc;
          apply Z.eqb_neq; intros <-;
          now destruct (name_char_plain 58 Hc) as (_ & _ & ? & _)).
    apply remove_handlers_plain.
    apply existsb_name; [|exact N]. intros c Hc.
    apply Z.eqb_neq. intros <-.
    now destruct (name_char_plain equals_sign Hc) as (_ & _ & _ & ? & _).
  - clear V L. induction username as [|c rest IH]; [reflexivity|].
    cbn [forallb] in N. apply andb_true_iff in N. destruct N as [Hc N].
    rewrite htmlEncode_cons, (IH N). unfold replacer.
    destruct (name_char_plain c Hc) as (_ & _ & _ & _ & ->). reflexivity.
Qed.

Lemma valid_username_is_plain_witness :
  sanitizeInput (str "only-me_2") 200 = str "only-me_2"
  /\ htmlEncode (str "only-me_2") = str "only-me_2".
Proof.
  apply (valid_username_is_plain (str "only-me_2") 200).
  - reflexivity.
  - lia.
Defined.

End TextProperties.

(* ------------------------------------------------------------------ *)
(** ** Paging of list responses *)

Section PaginationProperties.

Import Text Pagination.

(** X13.  A positive [offset] decides the page, whatever the [page]
    parameter says (even when it is not a number): the page is the one
    the offset falls on, and the offset returned is the given one moved
    down to the start of that page. *)
Theorem parsePaginationParams_offset_wins
        (searchParams : URLSearchParams) (o l : Z) :
  parseInt (or_else (get searchParams "offset") (str "0")) = Some o ->
  0 < o ->
  isSafeInteger o = true ->
  limit (parsePaginationParams searchParams) = Some l ->
  1 <= l <= 100
  /\ page (parsePaginationParams searchParams) = Some (o / l + 1)
  /\ offset (parsePaginationParams searchParams) = Some (l * (o / l))
  /\ l * (o / l) <= o < l * (o / l) + l.
Proof.
  unfold parsePaginationParams. cbn [page limit offset].
  intros -> Ho _ Hl. rewrite Hl.
  destruct (0 <? o) eqn:E; [|apply Z.ltb_ge in E; lia].
  assert (B : 1 <= l <= 100).
  { destruct (parseInt (or_else (get searchParams "limit") (str "20")))
      as [x|]; cbn in Hl; [|discriminate].
    injection Hl as <-. lia. }
  split; [exact B|]. split; [reflexivity|]. split; [f_equal; lia|].
  pose proof (Z.mul_div_le o l ltac:(lia)).
  pose proof (Z.mul_succ_div_gt o l ltac:(lia)). lia.
Qed.

Lemma parsePaginationParams_offset_wins_witness :
  1 <= 25 <= 100
  /\ page (parsePaginationParams
             [("page", str "oops"); ("limit", str "25px");
              ("offset", str " 60")]) = Some (60 / 25 + 1)
  /\ offset (parsePaginationParams
               [("page", str "oops"); ("limit", str "25px");
                ("offset", str " 60")]) = Some (25 * (60 / 25))
  /\ 25 * (60 / 25) <= 60 < 25 * (60 / 25) + 25.
Proof.
  apply (parsePaginationParams_offset_wins
           [("page", str "oops"); ("limit", str "25px");
            ("offset", str " 60")] 60 25).
  - reflexivity.
  - lia.
  - reflexivity.
  - reflexivity.
Defined.

(** X14.  A [limit] that is given but is not a number is not replaced by
    the default: the limit and the offset returned are then [NaN];
    otherwise the limit returned lies between 1 and 100. *)
Theorem parsePaginationParams_limit
        (searchParams : URLSearchParams) :
  match parseInt (or_else (get searchParams "limit") (str "20")) with
  | None =>
      limit (parsePaginationParams searchParams) = None
      /\ offset (parsePaginationParams searchParams) = None
  | Some x =>
      limit (parsePaginationParams searchParams)
      = Some (Z.min 100 (Z.max 1 x))
      /\ 1 <= Z.min 100 (Z.max 1 x) <= 100
  end.
Proof.
  unfold parsePaginationParams. cbn [page limit offset].
  destruct (parseInt (or_else (get searchParams "limit") (str "20")))
    as [x|]; cbn [Math_max Math_min].
  - split; [reflexivity | lia].
  - split; [reflexivity|].
    destruct (parseInt (or_else (get searchParams "offset") (str "0")))
      as [o|]; [destruct (0 <? o)|];
      destruct (parseInt (or_else (get searchParams "page") (str "1")));
      reflexivity.
Qed.

(** X15.  For a positive limit, [hasMore] says exactly that the page is
    before the last one: the two fields of the response never disagree,
    whatever the page and the total.  In particular they agree on every
    window [parsePaginationParams] returns with numbers in it. *)
Theorem hasMore_iff_before_last_page (p l t : Z) :
  0 < l ->
  isSafeInteger t = true ->
  isSafeInteger (p * l) = true ->
  exists n,
    totalPages (createPaginatedResponse (Some p) (Some l) (Some t)) = Some n
    /\ (hasMore (createPaginatedResponse (Some p) (Some l) (Some t)) = true
        <-> p < n).
Proof.
  intros Hl _ _. unfold createPaginatedResponse, ceil_div, product_below.
  cbn [totalPages hasMore].
  destruct (l =? 0) eqn:E; [apply Z.eqb_eq in E; lia|].
  eexists. split; [reflexivity|]. rewrite Z.ltb_lt.
  pose proof (Z.mul_div_le (- t) l Hl) as Lo.
  pose proof (Z.mul_succ_div_gt (- t) l Hl) as Hi.
  split; intros Hp; nia.
Qed.

Lemma hasMore_iff_before_last_page_witness :
  exists n,
    totalPages (createPaginatedResponse (Some 3) (Some 20) (Some 41))
    = Some n
    /\ (hasMore (createPaginatedResponse (Some 3) (Some 20) (Some 41)) = true
        <-> 3 < n).
Proof.
  apply (hasMore_iff_before_last_page 3 20 41); [lia | reflexivity..].
Defined.

End PaginationProperties.

(* ------------------------------------------------------------------ *)
(** ** Who may see a feed *)

Section FeedPrivacy.

Import SocialUtils.

(** X16.  The personal feed of a user is withheld exactly when a viewer id
    is given, it is another user's, and the owner's settings say that the
    activity is not public; in every other case, and so for every viewer
    without an id, the feed is the query for all activities of the owner,
    whatever the settings. *)
Theorem personal_feed_withheld_iff
        (db : database) (u : string) (viewerId : option string) :
  u <> "" ->
  (getActivityFeed db (Some u) personal viewerId = empty_feed
   <-> exists v row,
         viewerId = Some v /\ v <> "" /\ v <> u
         /\ user_settings db u = Some row
         /\ activity_is_private row = true)
  /\ (getActivityFeed db (Some u) personal viewerId = empty_feed
      \/ getActivityFeed db (Some u) personal viewerId
         = activities (own_activities u))
  /\ getActivityFeed db (Some u) personal None
     = activities (own_activities u).
Proof.
  intros Hu. unfold getActivityFeed, truthy, same_id.
  cbn [is_personal andb].
  assert (E : (u =? "")%string = false) by now apply String.eqb_neq.
  rewrite E. cbn [negb andb].
  split; [|split; [|reflexivity]].
  - destruct viewerId as [v|].
    + destruct (v =? "")%string eqn:Ev; cbn [negb andb].
      * apply String.eqb_eq in Ev. split; [discriminate|].
        intros (v' & row & [= <-] & N & _). contradiction.
      * destruct (u =? v)%string eqn:Euv; cbn [negb].
        -- apply String.eqb_eq in Euv. split; [discriminate|].
           intros (v' & row & [= <-] & _ & N & _). congruence.
        -- apply String.eqb_neq in Ev. apply String.eqb_neq in Euv.
           destruct (user_settings db u) as [row|].
           ++ destruct (activity_is_private row) eqn:P.
              ** split; [|reflexivity]. intros _. exists v, row.
                 repeat split; congruence.
              ** split; [discriminate|].
                 intros (v' & row' & _ & _ & _ & [= <-] & P'). congruence.
           ++ split; [discriminate|].
              intros (v' & row' & _ & _ & _ & D & _). discriminate.
    + split; [discriminate|]. intros (v & row & D & _). discriminate.
  - destruct viewerId as [v|]; [|now right].
    destruct (v =? "")%string; cbn [negb andb]; [now right|].
    destruct (u =? v)%string; cbn [negb]; [now right|].
    destruct (user_settings db u) as [row|]; [|now right].
    destruct (activity_is_private row); [now left | now right].
Qed.

Lemma personal_feed_withheld_iff_witness :
  getActivityFeed
    {| following_ids := fun _ => [];
       user_settings := fun _ =>
         Some (Some {| activity_public := Some false;
                       followers_public := None;
                       following_public := None |}) |}
    (Some "u1") personal None
  = activities (own_activities "u1").
Proof.
  apply (personal_feed_withheld_iff
           {| following_ids := fun _ => [];
              user_settings := fun _ =>
                Some (Some {| activity_public := Some false;
                              followers_public := None;
                              following_public := None |}) |}
           "u1" None ltac:(discriminate)).
Defined.

End FeedPrivacy.
